(** * AbstractTypeProcessor: a schema-driven, recursive data processor

    A shallow embedding of [src/index.jsx] (class [AbstractTypeProcessor])
    and the properties of its traversal engine.

    Conventions of the embedding.
    - A JavaScript value is a finite tree ([jsval]).  Numbers are the
      integer-valued ones; an object is the list of its own enumerable
      properties in creation order, the first binding of a name being the
      live one; prototype members are not part of a value.  A read
      [get] therefore sees own properties only: it is the read of the
      program where the name is an own property or no prototype defines
      it ([reads_own]), and the properties that depend on a read are
      stated for such reads.
    - An [async] method is a computation over the state that the two
      extension hooks may read and write ([M]); [await] is sequencing.
    - The methods call each other through [this]; the recursion
      [processValue -> processItem -> processFieldValue -> processValue]
      is cut by a fuel counter that only [processValue] consumes.  A
      computation that runs out of fuel yields [None]; this is not an
      exception and cannot be caught. *)

From Stdlib Require Import List String Ascii ZArith NArith Arith Bool Lia.
From Stdlib Require Import Permutation DecimalString DecimalN FinFun.
Import ListNotations.
Local Open Scope string_scope.
Local Open Scope list_scope.
Set Warnings "-register-all".

(** ** JavaScript values *)

Inductive jsval : Type :=
| VUndefined
| VNull
| VBoolean (b : bool)
| VNumber (n : Z)
| VString (s : string)
| VArray (elements : list jsval)
| VObject (properties : list (string * jsval)).

(** Association lists stand for the property tables of objects:
    [assoc_get] reads the first binding, [assoc_set] is the assignment
    [o[k] = v] (overwrite in place, or append a new property). *)
Section Assoc.
Context {K V : Type} (eqb : K -> K -> bool).

Fixpoint assoc_get (k : K) (l : list (K * V)) : option V :=
  match l with
  | [] => None
  | (k', v) :: rest => if eqb k' k then Some v else assoc_get k rest
  end.

Fixpoint assoc_set (k : K) (v : V) (l : list (K * V)) : list (K * V) :=
  match l with
  | [] => [(k, v)]
  | (k', v') :: rest =>
      if eqb k' k then (k', v) :: rest else (k', v') :: assoc_set k v rest
  end.
End Assoc.

(** The canonical decimal name of an array index, and its inverse: a
    property name is an array index when it is the canonical numeral of
    an integer below 2^32 - 1. *)
Definition index_name (n : N) : string :=
  NilZero.string_of_uint (N.to_uint n).

Definition array_index (k : string) : option N :=
  match NilZero.uint_of_string k with
  | Some d =>
      let n := N.of_uint d in
      if (String.eqb (index_name n) k && (n <? 4294967295)%N)%bool
      then Some n else None
  | None => None
  end.

Definition is_index (k : string) : bool :=
  match array_index k with Some _ => true | None => false end.

(** Own property names in the order [Object.keys] lists them: array
    indices in ascending order, then the other names in creation order. *)
Fixpoint dedup (l : list string) : list string :=
  match l with
  | [] => []
  | k :: rest => k :: filter (fun k' => negb (String.eqb k' k)) (dedup rest)
  end.

Fixpoint insert_index (n : N) (l : list N) : list N :=
  match l with
  | [] => [n]
  | m :: rest => if (n <=? m)%N then n :: l else m :: insert_index n rest
  end.

Definition sort_indices (l : list N) : list N :=
  fold_right insert_index [] l.

Fixpoint indices_of (l : list string) : list N :=
  match l with
  | [] => []
  | k :: rest =>
      match array_index k with
      | Some n => n :: indices_of rest
      | None => indices_of rest
      end
  end.

Definition ownKeys (names : list string) : list string :=
  let ks := dedup names in
  map index_name (sort_indices (indices_of ks))
    ++ filter (fun k => negb (is_index k)) ks.

Definition array_keys (len : nat) : list string :=
  map (fun i => index_name (N.of_nat i)) (seq 0 len).

Definition Object_keys (v : jsval) : list string :=
  match v with
  | VObject o => ownKeys (map fst o)
  | VArray l => array_keys (List.length l)
  | VString s => array_keys (String.length s)
  | _ => []
  end.

(** [get v k] is the property read [v[k]] on a value that is neither
    [undefined] nor [null]: own properties only. *)
Definition get (v : jsval) (k : string) : jsval :=
  match v with
  | VObject o =>
      match assoc_get String.eqb k o with
      | Some x => x
      | None => VUndefined
      end
  | VArray l =>
      match array_index k with
      | Some n =>
          if (n <? N.of_nat (List.length l))%N
          then nth (N.to_nat n) l VUndefined else VUndefined
      | None =>
          if String.eqb k "length"
          then VNumber (Z.of_nat (List.length l)) else VUndefined
      end
  | VString s =>
      match array_index k with
      | Some n =>
          if (n <? N.of_nat (String.length s))%N
          then match String.get (N.to_nat n) s with
               | Some c => VString (String c EmptyString)
               | None => VUndefined
               end
          else VUndefined
      | None =>
          if String.eqb k "length"
          then VNumber (Z.of_nat (String.length s)) else VUndefined
      end
  | _ => VUndefined
  end.

(** [v instanceof Object], [v instanceof Array] and the conversion of a
    value to a boolean in a condition. *)
Definition instanceofObject (v : jsval) : bool :=
  match v with
  | VArray _ | VObject _ => true
  | _ => false
  end.

Definition instanceofArray (v : jsval) : bool :=
  match v with
  | VArray _ => true
  | _ => false
  end.

Definition truthy (v : jsval) : bool :=
  match v with
  | VUndefined | VNull => false
  | VBoolean b => b
  | VNumber n => negb (n =? 0)%Z
  | VString s => negb (String.eqb s "")
  | VArray _ | VObject _ => true
  end.

(** [keys.length] in a condition: true when there is a key. *)
Definition truthy_length {A} (keys : list A) : bool :=
  negb (Nat.eqb (List.length keys) 0).

(** The members that every object inherits from [Object.prototype]. *)
Definition Object_prototype_names : list string :=
  [ "constructor"; "hasOwnProperty"; "isPrototypeOf";
    "propertyIsEnumerable"; "toLocaleString"; "toString"; "valueOf";
    "__defineGetter__"; "__defineSetter__"; "__lookupGetter__";
    "__lookupSetter__"; "__proto__" ].

(** [reads_own v k]: the read [v[k]] is settled by the own properties of
    [v], so that [get v k] is what the program reads.  On a record the
    name is an own property or is none of the members of
    [Object.prototype]; on an array or a string it is an index within
    bounds or [length] (their prototypes define many more names, all
    taken as inherited here). *)
Definition reads_own (v : jsval) (k : string) : bool :=
  match v with
  | VObject o =>
      existsb (String.eqb k) (map fst o)
      || negb (existsb (String.eqb k) Object_prototype_names)
  | VArray l =>
      match array_index k with
      | Some n => (n <? N.of_nat (List.length l))%N
      | None => String.eqb k "length"
      end
  | VString s =>
      match array_index k with
      | Some n => (n <? N.of_nat (String.length s))%N
      | None => String.eqb k "length"
      end
  | _ => false
  end.

(** [plain_name v]: [v] is a type name whose property name
    [toPropertyKey] gives exactly: a string, [undefined], [null], a
    boolean or a safe integer.  (An object or an array is converted by
    its own [toString], which may be missing or throw; a large number is
    printed in exponent form.) *)
Definition plain_name (v : jsval) : bool :=
  match v with
  | VUndefined | VNull | VBoolean _ | VString _ => true
  | VNumber n => (Z.abs n <? 9007199254740992)%Z
  | VArray _ | VObject _ => false
  end.

(** The conversion of a value to a property name, as in [o[v]]
    (numbers: the plain decimal numeral, which is what the engine prints
    below 10^21). *)
Definition number_name (n : Z) : string :=
  match n with
  | Z0 => "0"
  | Zpos p => index_name (Npos p)
  | Zneg p => String.append "-" (index_name (Npos p))
  end.

Fixpoint toPropertyKey (v : jsval) : string :=
  match v with
  | VUndefined => "undefined"
  | VNull => "null"
  | VBoolean true => "true"
  | VBoolean false => "false"
  | VNumber n => number_name n
  | VString s => s
  | VArray l =>
      let element x :=
        match x with
        | VUndefined | VNull => ""
        | _ => toPropertyKey x
        end in
      (fix join (l : list jsval) : string :=
         match l with
         | [] => ""
         | [x] => element x
         | x :: rest => (element x ++ "," ++ join rest)%string
         end) l
  | VObject _ => "[object Object]"
  end.

(** Nesting depth of a value; it bounds the recursion of a traversal. *)
Fixpoint depth (v : jsval) : nat :=
  match v with
  | VArray l => S (fold_right (fun x d => Nat.max (depth x) d) 0 l)
  | VObject o => S (fold_right (fun p d => Nat.max (depth (snd p)) d) 0 o)
  | _ => 0
  end.

(** ** Errors

    The seven [ERROR_MESSAGES] of the class.  The two aggregates carry
    the table assigned to [fields], respectively [indices].  [Thrown] is
    whatever an extension hook throws; [NATIVE_TYPE_ERROR] is the
    engine's own error for a property read on [null]. *)
Inductive error : Type :=
| NON_EXISTENT_TYPE
| NON_EXISTENT_FIELD
| MISSING_FIELDS_FOR_TYPE
| ITEM_ERROR (fields : list (string * error))
| VALUE_LIST_ERROR (indices : list (nat * error))
| INVALID_VALUE_LIST
| INVALID_ITEM
| NATIVE_TYPE_ERROR
| Thrown (v : jsval).

(** The way a call completes: it returns or it throws. *)
Inductive completion (A : Type) : Type :=
| Return (a : A)
| Throw (e : error).
Arguments Return {A} a.
Arguments Throw {A} e.

Definition is_throw {A} (c : completion A) : bool :=
  match c with Throw _ => true | Return _ => false end.

(** ** Computations

    [M St A] is an [async] call: from the hooks' state it yields a
    completion and the new state, or [None] when the fuel is spent. *)
Definition M (St A : Type) : Type := St -> option (completion A * St).

Definition ret {St A} (a : A) : M St A := fun s => Some (Return a, s).

Definition throw {St A} (e : error) : M St A := fun s => Some (Throw e, s).

Definition bind {St A B} (m : M St A) (k : A -> M St B) : M St B :=
  fun s =>
    match m s with
    | None => None
    | Some (Return a, s') => k a s'
    | Some (Throw e, s') => Some (Throw e, s')
    end.

(** [await] of a call that does not touch the state. *)
Definition await {St A} (c : completion A) : M St A := fun s => Some (c, s).

(** A call of an extension hook. *)
Definition invoke {St A} (h : St -> completion A * St) : M St A :=
  fun s => Some (h s).

(** [try { m } catch (error) { ... }]: the completion of [m], reified. *)
Definition try {St A} (m : M St A) : M St (completion A) :=
  fun s =>
    match m s with
    | None => None
    | Some (c, s') => Some (Return c, s')
    end.

Definition cbind {A B} (c : completion A) (k : A -> completion B)
  : completion B :=
  match c with
  | Return a => k a
  | Throw e => Throw e
  end.

Declare Scope js_scope.
Delimit Scope js_scope with js.
Notation "x <- m ;; k" := (bind m (fun x => k))
  (at level 100, m at next level, right associativity) : js_scope.
Notation "'let*' x := c 'in' k" := (cbind c (fun x => k))
  (at level 100, x name, c at next level, right associativity) : js_scope.
Local Open Scope js_scope.

(** ** The class

    An instance is its [typeMap] and its two overridable hooks.  A hook
    takes the value and the type name and completes over the state. *)
Record AbstractTypeProcessor (St : Type) : Type := {
  typeMap : jsval;
  processPrimitiveValue : jsval -> jsval -> St -> completion jsval * St;
  processRemoteValue : jsval -> jsval -> St -> completion jsval * St
}.
Arguments typeMap {St} _.
Arguments processPrimitiveValue {St} _ _ _ _.
Arguments processRemoteValue {St} _ _ _ _.

(** [static valueExists (value)] *)
Definition valueExists (v : jsval) : bool :=
  negb (match v with VUndefined | VNull => true | _ => false end).

(** [const { features = {} } = o]: the default replaces [undefined]
    only. *)
Definition features_of (o : jsval) : jsval :=
  match get o "features" with
  | VUndefined => VObject []
  | features => features
  end.

(** [features[featureName]]: a read on [null] throws. *)
Definition member (v : jsval) (k : string) : completion jsval :=
  match v with
  | VUndefined | VNull => Throw NATIVE_TYPE_ERROR
  | _ => Return (get v k)
  end.

(** The assignment [o[k] = v] on a fresh plain object.  The name
    [__proto__] is the accessor that [Object.prototype] defines:
    assigning to it creates no property (and the change of prototype
    that it may make is not part of a value); any other name is set. *)
Definition assign {V : Type} (k : string) (v : V) (o : list (string * V))
  : list (string * V) :=
  if String.eqb k "__proto__" then o else assoc_set String.eqb k v o.

(** The entries that [assign] keeps. *)
Definition settable {V : Type} (l : list (string * V))
  : list (string * V) :=
  filter (fun p => negb (String.eqb (fst p) "__proto__")) l.

Section Methods.
Context {St : Type} (this : AbstractTypeProcessor St).

Definition getTypeDefinition (typeName : jsval) : completion jsval :=
  if instanceofObject (typeMap this) then
    let typeDefinition := get (typeMap this) (toPropertyKey typeName) in
    if instanceofObject typeDefinition
    then Return typeDefinition
    else Throw NON_EXISTENT_TYPE
  else Throw NON_EXISTENT_TYPE.

Definition getFieldList (typeName : jsval) : completion (list string) :=
  let* typeDefinition := getTypeDefinition typeName in
  let fields := get typeDefinition "fields" in
  if instanceofObject fields
  then Return (Object_keys fields)
  else Throw MISSING_FIELDS_FOR_TYPE.

Definition getFieldDescriptor (typeName : jsval) (fieldName : string)
  : completion jsval :=
  let* typeDefinition := getTypeDefinition typeName in
  let fields := get typeDefinition "fields" in
  if instanceofObject fields then
    let f := get fields fieldName in
    if instanceofObject f then Return f else Throw NON_EXISTENT_FIELD
  else Throw NON_EXISTENT_FIELD.

Definition getTypeFeature (typeName : jsval) (featureName : string)
  : completion jsval :=
  let* typeDefinition := getTypeDefinition typeName in
  member (features_of typeDefinition) featureName.

Definition getFieldFeature (typeName : jsval)
  (fieldName featureName : string) : completion jsval :=
  let* fieldDescriptor := getFieldDescriptor typeName fieldName in
  member (features_of fieldDescriptor) featureName.

(** The bodies of the three methods that reach [processValue] only
    through [this]; [pv] is that method. *)
Section Bodies.
Variable pv : jsval -> jsval -> M St jsval.

(** The [for] loop of [processValueList], from index [i] on, with
    its two accumulators. *)
Fixpoint processValueList_loop (valueList : list jsval)
  (typeName : jsval) (i : nat) (newList : list jsval)
  (errorIndices : list (nat * error))
  : M St (list jsval * list (nat * error)) :=
  match valueList with
  | [] => ret (newList, errorIndices)
  | value :: rest =>
      c <- try (pv value typeName) ;;
      match c with
      | Return newValue =>
          processValueList_loop rest typeName (S i)
            (newList ++ [newValue]) errorIndices
      | Throw error =>
          processValueList_loop rest typeName (S i)
            newList (assoc_set Nat.eqb i error errorIndices)
      end
  end.

Definition processValueList_body (valueList typeName : jsval)
  : M St jsval :=
  match valueList with
  | VArray elements =>
      r <- processValueList_loop elements typeName 0 [] [] ;;
      let '(newList, errorIndices) := r in
      if truthy_length (map fst errorIndices)
      then throw (VALUE_LIST_ERROR errorIndices)
      else ret (VArray newList)
  | _ =>
      if negb (valueExists valueList) then ret valueList
      else throw INVALID_VALUE_LIST
  end.

Definition processFieldValue_body (value typeName : jsval)
  (fieldName : string) : M St jsval :=
  fieldDescriptor <- await (getFieldDescriptor typeName fieldName) ;;
  let fieldTypeName := get fieldDescriptor "type" in
  let multiple := get fieldDescriptor "multiple" in
  if truthy multiple
  then processValueList_body value fieldTypeName
  else pv value fieldTypeName.

(** The [for] loop of [processItem] over the rest of the field
    list, with its two accumulators. *)
Fixpoint processItem_loop (item typeName : jsval)
  (fieldList : list string) (newItem : list (string * jsval))
  (errorFields : list (string * error))
  : M St (list (string * jsval) * list (string * error)) :=
  match fieldList with
  | [] => ret (newItem, errorFields)
  | fieldName :: rest =>
      let value := get item fieldName in
      c <- try (processFieldValue_body value typeName fieldName) ;;
      match c with
      | Return newValue =>
          processItem_loop item typeName rest
            (assign fieldName newValue newItem)
            errorFields
      | Throw error =>
          processItem_loop item typeName rest newItem
            (assign fieldName error errorFields)
      end
  end.

Definition processItem_body (item typeName : jsval) : M St jsval :=
  if instanceofObject item then
    fieldList <- await (getFieldList typeName) ;;
    r <- processItem_loop item typeName fieldList [] [] ;;
    let '(newItem, errorFields) := r in
    if truthy_length (ownKeys (map fst errorFields))
    then throw (ITEM_ERROR errorFields)
    else ret (VObject newItem)
  else if negb (valueExists item) then ret item
  else throw INVALID_ITEM.
End Bodies.

Fixpoint processValue (fuel : nat) (value typeName : jsval)
  : M St jsval :=
  match fuel with
  | 0 => fun _ => None
  | S fuel' =>
      typeDefinition <- await (getTypeDefinition typeName) ;;
      let primitive := get typeDefinition "primitive" in
      let remote := get typeDefinition "remote" in
      if truthy primitive
      then invoke (processPrimitiveValue this value typeName)
      else if truthy remote
      then invoke (processRemoteValue this value typeName)
      else processItem_body (processValue fuel') value typeName
  end.

Definition processValueList (fuel : nat) (valueList typeName : jsval)
  : M St jsval :=
  processValueList_body (processValue fuel) valueList typeName.

Definition processFieldValue (fuel : nat) (value typeName : jsval)
  (fieldName : string) : M St jsval :=
  processFieldValue_body (processValue fuel) value typeName fieldName.

Definition processItem (fuel : nat) (item typeName : jsval)
  : M St jsval :=
  processItem_body (processValue fuel) item typeName.
End Methods.

(** The base class itself: both hooks are the identity. *)
Definition identity_hook {St : Type} (value _ : jsval) (s : St)
  : completion jsval * St :=
  (Return value, s).

Definition new {St : Type} (config_typeMap : jsval)
  : AbstractTypeProcessor St :=
  {| typeMap := config_typeMap;
     processPrimitiveValue := identity_hook;
     processRemoteValue := identity_hook |}.

(** ** The outcome of a pass over the fields or the elements

    [outcomes f l] runs [f] on the members of [l] one after the other,
    each from the state the previous one left, and lists how each one
    completed.  It is the yardstick for the two loops: which members
    failed, and with what. *)
Fixpoint outcomes {St A B} (f : A -> M St B) (l : list A) (s : St)
  : option (list (completion B) * St) :=
  match l with
  | [] => Some ([], s)
  | a :: rest =>
      match f a s with
      | None => None
      | Some (c, s1) =>
          match outcomes f rest s1 with
          | None => None
          | Some (cs, s2) => Some (c :: cs, s2)
          end
      end
  end.

(** The results of the members that returned, in order. *)
Fixpoint returned {A} (cs : list (completion A)) : list A :=
  match cs with
  | [] => []
  | Return a :: rest => a :: returned rest
  | Throw _ :: rest => returned rest
  end.

(** The members that returned, under their keys. *)
Fixpoint kept {K A} (ks : list K) (cs : list (completion A))
  : list (K * A) :=
  match ks, cs with
  | k :: ks', Return a :: cs' => (k, a) :: kept ks' cs'
  | _ :: ks', Throw _ :: cs' => kept ks' cs'
  | _, _ => []
  end.

(** The members that threw, under their keys. *)
Fixpoint thrown {K A} (ks : list K) (cs : list (completion A))
  : list (K * error) :=
  match ks, cs with
  | k :: ks', Throw e :: cs' => (k, e) :: thrown ks' cs'
  | _ :: ks', Return _ :: cs' => thrown ks' cs'
  | _, _ => []
  end.

(** What a call returns from state [s], when it returns. *)
Definition result_of {St} (s : St) (m : M St jsval) : jsval :=
  match m s with
  | Some (Return out, _) => out
  | _ => VUndefined
  end.

(** [outcome ks cs k c]: the member with key [k] completed with [c]. *)
Definition outcome {K A} (ks : list K) (cs : list (completion A))
  (k : K) (c : completion A) : Prop :=
  exists i, nth_error ks i = Some k /\ nth_error cs i = Some c.

(** ** Conforming inputs, restriction and deep equality

    These three notions are the specification's, not the program's.
    A value conforms to a type when the type is declared and either is
    a leaf type (primitive or remote, any value), or the value is absent,
    or the value is a plain record that owns every declared field, each
    conforming to the field's type (a list of conforming elements, or
    absent, when the field is [multiple]).  Type names are plain and no
    field is named [__proto__]. *)
Definition owns (item : jsval) (k : string) : bool :=
  existsb (String.eqb k) (Object_keys item).

Section Conformance.
Context {St : Type} (this : AbstractTypeProcessor St).

Section Bodies.
Variable cv : jsval -> jsval -> bool.

Definition conformsList (valueList typeName : jsval) : bool :=
  match valueList with
  | VArray elements => forallb (fun x => cv x typeName) elements
  | _ => negb (valueExists valueList)
  end.

Definition conformsField (item typeName : jsval) (fieldName : string)
  : bool :=
  match getFieldDescriptor this typeName fieldName with
  | Return fieldDescriptor =>
      owns item fieldName &&
      plain_name (get fieldDescriptor "type") &&
      (if truthy (get fieldDescriptor "multiple")
       then conformsList (get item fieldName) (get fieldDescriptor "type")
       else cv (get item fieldName) (get fieldDescriptor "type"))
  | Throw _ => false
  end.

Definition conformsItem_body (item typeName : jsval) : bool :=
  match item, getFieldList this typeName with
  | VObject _, Return fieldList =>
      plain_name typeName &&
      negb (existsb (String.eqb "__proto__") fieldList) &&
      forallb (conformsField item typeName) fieldList
  | _, _ => false
  end.
End Bodies.

Fixpoint conformsValue (fuel : nat) (value typeName : jsval) : bool :=
  match fuel with
  | 0 => false
  | S fuel' =>
      match getTypeDefinition this typeName with
      | Return typeDefinition =>
          plain_name typeName &&
          (if truthy (get typeDefinition "primitive") then true
           else if truthy (get typeDefinition "remote") then true
           else negb (valueExists value)
                || conformsItem_body (conformsValue fuel') value typeName)
      | Throw _ => false
      end
  end.

Definition conformsItem (fuel : nat) (item typeName : jsval) : bool :=
  conformsItem_body (conformsValue fuel) item typeName.

(** The input restricted to the declared fields of its type: a record
    keeps, in its own order, the properties the type declares, each
    restricted by the type of its field; leaves are kept whole. *)
Section Restriction.
Variable rv : jsval -> jsval -> jsval.

Definition restrictList (valueList typeName : jsval) : jsval :=
  match valueList with
  | VArray elements => VArray (map (fun x => rv x typeName) elements)
  | _ => valueList
  end.

Definition restrictField (typeName : jsval) (fieldName : string)
  (value : jsval) : jsval :=
  match getFieldDescriptor this typeName fieldName with
  | Return fieldDescriptor =>
      if truthy (get fieldDescriptor "multiple")
      then restrictList value (get fieldDescriptor "type")
      else rv value (get fieldDescriptor "type")
  | Throw _ => value
  end.

Definition restrictItem_body (item typeName : jsval) : jsval :=
  match item, getFieldList this typeName with
  | VObject o, Return fieldList =>
      VObject
        (map (fun k => (k, restrictField typeName k (get item k)))
           (filter (fun k => existsb (String.eqb k) fieldList)
              (dedup (map fst o))))
  | _, _ => item
  end.
End Restriction.

Fixpoint restrictValue (fuel : nat) (value typeName : jsval) : jsval :=
  match fuel with
  | 0 => value
  | S fuel' =>
      match getTypeDefinition this typeName with
      | Return typeDefinition =>
          if truthy (get typeDefinition "primitive") then value
          else if truthy (get typeDefinition "remote") then value
          else restrictItem_body (restrictValue fuel') value typeName
      | Throw _ => value
      end
  end.

Definition restrictItem (fuel : nat) (item typeName : jsval) : jsval :=
  restrictItem_body (restrictValue fuel) item typeName.
End Conformance.

(** Deep equality: the same leaf, arrays equal element by element,
    records with the same names and deeply equal values under each,
    whatever the order of the properties. *)
Inductive deepEqual : jsval -> jsval -> Prop :=
| deepEqual_same : forall v, deepEqual v v
| deepEqual_array : forall l1 l2,
    Forall2 deepEqual l1 l2 -> deepEqual (VArray l1) (VArray l2)
| deepEqual_object : forall o1 o2,
    (forall k, In k (Object_keys (VObject o1))
               <-> In k (Object_keys (VObject o2))) ->
    (forall k, In k (Object_keys (VObject o1)) ->
               deepEqual (get (VObject o1) k) (get (VObject o2) k)) ->
    deepEqual (VObject o1) (VObject o2).

(** ** Instances used in the scenarios *)

(** [{ String: {primitive: true},
       Contact: {fields: {firstName: {type: 'String'}}} }] *)
Definition contactTypeMap : jsval :=
  VObject
    [ ("String", VObject [("primitive", VBoolean true)]);
      ("Contact",
        VObject
          [("fields",
             VObject [("firstName", VObject [("type", VString "String")])])])
    ].

(** The type map parsed from the JSON text
    [{"String": {"primitive": true},
      "P": {"fields": {"__proto__": {"type": "String"},
                       "a": {"type": "String"}}}}],
    in which [__proto__] is an own property of [fields]. *)
Definition protoFieldTypeMap : jsval :=
  VObject
    [ ("String", VObject [("primitive", VBoolean true)]);
      ("P",
        VObject
          [("fields",
             VObject [("__proto__", VObject [("type", VString "String")]);
                      ("a", VObject [("type", VString "String")])])])
    ].

(** [{ Empty: {fields: {}} }] *)
Definition emptyFieldsTypeMap : jsval :=
  VObject [("Empty", VObject [("fields", VObject [])])].

(** [{ Both: {primitive: true, remote: true} }] *)
Definition bothFlagsTypeMap : jsval :=
  VObject
    [("Both", VObject [("primitive", VBoolean true);
                       ("remote", VBoolean true)])].

(** The type map that the repository gives as its example: a primitive
    type, a remote type and a composite type with features, one typed
    field with features and one field with an empty descriptor. *)
Definition exampleFeatures : jsval :=
  VObject
    [("feature1", VObject [("configParam1", VBoolean true);
                           ("configParam2", VString "anything")]);
     ("feature2", VObject [])].

Definition exampleTypeMap : jsval :=
  VObject
    [("PrimitiveType",
       VObject [("name", VString "PrimitiveType");
                ("label", VString "Primitive Type");
                ("primitive", VBoolean true)]);
     ("AnotherType",
       VObject [("name", VString "AnotherType");
                ("label", VString "Another Type");
                ("remote", VBoolean true)]);
     ("TypeName",
       VObject [("name", VString "TypeName");
                ("label", VString "Type Label");
                ("features", exampleFeatures);
                ("fields",
                  VObject
                    [("fieldName1",
                       VObject [("type", VString "AnotherType");
                                ("label", VString "Field Label");
                                ("features", exampleFeatures)]);
                     ("fieldName2", VObject [])])])].

(** A subclass whose hooks record their calls and return the value. *)
Inductive call : Type :=
| PrimitiveCall (value typeName : jsval)
| RemoteCall (value typeName : jsval).

Definition recording (config_typeMap : jsval)
  : AbstractTypeProcessor (list call) :=
  {| typeMap := config_typeMap;
     processPrimitiveValue := fun value typeName log =>
       (Return value, log ++ [PrimitiveCall value typeName]);
     processRemoteValue := fun value typeName log =>
       (Return value, log ++ [RemoteCall value typeName]) |}.

(** A subclass whose primitive hook accepts strings only and throws
    the value otherwise. *)
Definition strings_only (config_typeMap : jsval)
  : AbstractTypeProcessor unit :=
  {| typeMap := config_typeMap;
     processPrimitiveValue := fun value _ s =>
       match value with
       | VString _ => (Return value, s)
       | _ => (Throw (Thrown value), s)
       end;
     processRemoteValue := identity_hook |}.

(** A type is absent from the type map when its name, a plain one, is
    not among the map's own keys and is the name of no member that the
    map inherits. *)
Definition absentType {St} (this : AbstractTypeProcessor St)
  (typeName : jsval) : Prop :=
  plain_name typeName = true
  /\ ~ In (toPropertyKey typeName) (Object_keys (typeMap this))
  /\ (instanceofObject (typeMap this) = true ->
      reads_own (typeMap this) (toPropertyKey typeName) = true).

(** The type name under which a field is processed: the [type] of its
    descriptor ([undefined] when the field has none). *)
Definition fieldTypeOf {St} (this : AbstractTypeProcessor St)
  (typeName : jsval) (fieldName : string) : jsval :=
  match getFieldDescriptor this typeName fieldName with
  | Return fieldDescriptor => get fieldDescriptor "type"
  | Throw _ => VUndefined
  end.

(** A type map none of whose types declares a field named
    [__proto__], and one whose field descriptors all have a plain type
    name. *)
Definition declares_no_proto (config_typeMap : jsval) : bool :=
  forallb
    (fun T =>
       negb (existsb (String.eqb "__proto__")
               (Object_keys (get (get config_typeMap T) "fields"))))
    (Object_keys config_typeMap).

Definition plain_field_types (config_typeMap : jsval) : bool :=
  forallb
    (fun T =>
       let fields := get (get config_typeMap T) "fields" in
       forallb (fun f => plain_name (get (get fields f) "type"))
         (Object_keys fields))
    (Object_keys config_typeMap).

(** The keys of an index table moved up by [n]. *)
Definition shift_indices (n : nat) (indices : list (nat * error))
  : list (nat * error) :=
  map (fun p => (n + fst p, snd p)) indices.

(** * Properties *)

(** ** Property tables *)

Section AssocFacts.
Context {K V : Type} (eqb : K -> K -> bool).
Hypothesis eqb_spec : forall a b, eqb a b = true <-> a = b.

Lemma assoc_get_None (k : K) (l : list (K * V)) :
  assoc_get eqb k l = None <-> ~ In k (map fst l).
Proof.
  induction l as [|[k' v] l IH]; simpl.
  - tauto.
  - destruct (eqb k' k) eqn:E.
    + apply eqb_spec in E. split; [discriminate | intros H; exfalso; auto].
    + assert (k' <> k) by (intros ->; rewrite (proj2 (eqb_spec k k)) in E;
                            [discriminate | reflexivity]).
      rewrite IH. tauto.
Qed.

Lemma assoc_get_In (k : K) (v : V) (l : list (K * V)) :
  assoc_get eqb k l = Some v -> In (k, v) l.
Proof.
  induction l as [|[k' v'] l IH]; simpl; [discriminate|].
  destruct (eqb k' k) eqn:E.
  - apply eqb_spec in E. intros [= ->]. subst. now left.
  - intros H. right. auto.
Qed.

Lemma assoc_get_NoDup (k : K) (v : V) (l : list (K * V)) :
  NoDup (map fst l) -> In (k, v) l -> assoc_get eqb k l = Some v.
Proof.
  induction l as [|[k' v'] l IH]; simpl; [tauto|].
  intros N [H | H]; inversion N; subst.
  - injection H as -> ->. now rewrite (proj2 (eqb_spec k k)).
  - destruct (eqb k' k) eqn:E; [|auto].
    apply eqb_spec in E. subst. exfalso. apply H2.
    now apply (in_map fst) in H.
Qed.

Lemma assoc_set_fresh (k : K) (v : V) (l : list (K * V)) :
  ~ In k (map fst l) -> assoc_set eqb k v l = l ++ [(k, v)].
Proof.
  induction l as [|[k' v'] l IH]; simpl; [reflexivity|].
  intros H. destruct (eqb k' k) eqn:E.
  - apply eqb_spec in E. tauto.
  - rewrite IH; [reflexivity | tauto].
Qed.
End AssocFacts.

Lemma string_eqb_spec (a b : string) : String.eqb a b = true <-> a = b.
Proof. apply String.eqb_eq. Qed.

Lemma nat_eqb_spec (a b : nat) : Nat.eqb a b = true <-> a = b.
Proof. apply Nat.eqb_eq. Qed.

(** ** The order of [Object.keys] *)

Lemma In_dedup (k : string) (l : list string) : In k (dedup l) <-> In k l.
Proof.
  induction l as [|a l IH]; simpl; [tauto|].
  rewrite filter_In, IH, negb_true_iff, String.eqb_neq.
  destruct (string_dec a k); [tauto|]. intuition congruence.
Qed.

Lemma NoDup_dedup (l : list string) : NoDup (dedup l).
Proof.
  induction l as [|a l IH]; simpl; constructor.
  - rewrite filter_In, negb_true_iff, String.eqb_neq. tauto.
  - now apply NoDup_filter.
Qed.

Lemma array_index_name (k : string) (n : N) :
  array_index k = Some n -> index_name n = k.
Proof.
  unfold array_index. destruct (NilZero.uint_of_string k); [|discriminate].
  destruct (String.eqb _ k) eqn:E; simpl; [|discriminate].
  destruct (_ <? _)%N; [|discriminate].
  intros [= <-]. now apply String.eqb_eq.
Qed.

Lemma to_uint_nonnil (n : N) : N.to_uint n <> Decimal.Nil.
Proof.
  rewrite <- (DecimalN.Unsigned.of_to n), DecimalN.Unsigned.to_of.
  unfold Decimal.unorm. destruct (Decimal.nzhead _); discriminate.
Qed.

Lemma parse_index_name (n : N) :
  NilZero.uint_of_string (index_name n) = Some (N.to_uint n).
Proof. apply NilZero.usu, to_uint_nonnil. Qed.

Lemma index_name_inj (n m : N) : index_name n = index_name m -> n = m.
Proof.
  intros H. apply (f_equal NilZero.uint_of_string) in H.
  rewrite !parse_index_name in H. injection H as H.
  now apply DecimalN.Unsigned.to_uint_inj.
Qed.

Lemma array_index_of_name (n : N) :
  (n < 4294967295)%N -> array_index (index_name n) = Some n.
Proof.
  intros H. unfold array_index.
  rewrite parse_index_name, DecimalN.Unsigned.of_to, String.eqb_refl.
  apply N.ltb_lt in H. now rewrite H.
Qed.

Lemma array_index_bound (k : string) (n : N) :
  array_index k = Some n -> (n < 4294967295)%N.
Proof.
  unfold array_index. destruct (NilZero.uint_of_string k); [|discriminate].
  destruct (String.eqb _ k); simpl; [|discriminate].
  destruct (_ <? _)%N eqn:E; [|discriminate].
  intros [= <-]. now apply N.ltb_lt.
Qed.

Lemma insert_index_perm (n : N) (l : list N) :
  Permutation (insert_index n l) (n :: l).
Proof.
  induction l as [|m l IH]; simpl; [reflexivity|].
  destruct (n <=? m)%N; [reflexivity|].
  rewrite IH. apply perm_swap.
Qed.

Lemma sort_indices_perm (l : list N) : Permutation (sort_indices l) l.
Proof.
  induction l as [|n l IH]; simpl; [reflexivity|].
  rewrite insert_index_perm. now constructor.
Qed.

Lemma In_indices_of (n : N) (l : list string) :
  In n (indices_of l) <-> exists k, In k l /\ array_index k = Some n.
Proof.
  induction l as [|a l IH]; simpl.
  - split; [tauto | intros [k [[] _]]].
  - destruct (array_index a) eqn:E; simpl; rewrite IH; split.
    + intros [<- | [k [H1 H2]]]; eauto.
    + intros [k [[<- | H1] H2]]; [left; congruence | eauto].
    + intros [k [H1 H2]]; eauto.
    + intros [k [[<- | H1] H2]]; [congruence | eauto].
Qed.

Lemma NoDup_indices_of (l : list string) :
  NoDup l -> NoDup (indices_of l).
Proof.
  induction 1 as [|a l Ha N IH]; simpl; [constructor|].
  destruct (array_index a) eqn:E; [|assumption].
  constructor; [|assumption].
  rewrite In_indices_of. intros [k [H1 H2]].
  apply array_index_name in E, H2. congruence.
Qed.

Lemma In_index_part (k : string) (l : list string) :
  In k (map index_name (sort_indices (indices_of l)))
  <-> In k l /\ is_index k = true.
Proof.
  rewrite in_map_iff. unfold is_index. split.
  - intros [n [<- H]].
    apply (Permutation_in _ (sort_indices_perm _)) in H.
    apply In_indices_of in H as [k [H1 H2]].
    rewrite (array_index_name _ _ H2). rewrite H2. auto.
  - intros [H1 H2]. destruct (array_index k) as [n|] eqn:E; [|discriminate].
    exists n. split; [now apply array_index_name|].
    apply (Permutation_in _ (Permutation_sym (sort_indices_perm _))).
    apply In_indices_of. eauto.
Qed.

Lemma In_ownKeys (k : string) (l : list string) :
  In k (ownKeys l) <-> In k l.
Proof.
  unfold ownKeys. rewrite in_app_iff, In_index_part, filter_In, In_dedup.
  rewrite negb_true_iff. destruct (is_index k); intuition congruence.
Qed.

Lemma NoDup_ownKeys (l : list string) : NoDup (ownKeys l).
Proof.
  unfold ownKeys. apply NoDup_app.
  - apply Injective_map_NoDup; [exact index_name_inj|].
    apply (Permutation_NoDup (Permutation_sym (sort_indices_perm _))).
    apply NoDup_indices_of, NoDup_dedup.
  - apply NoDup_filter, NoDup_dedup.
  - intros k H1 H2. apply In_index_part in H1 as [_ H1].
    apply filter_In in H2 as [_ H2]. rewrite H1 in H2. discriminate.
Qed.

Lemma ownKeys_nil (l : list string) : ownKeys l = [] <-> l = [].
Proof.
  split; [|now intros ->].
  destruct l as [|a l]; [reflexivity|]. intros H. exfalso.
  assert (In a (ownKeys (a :: l))) as Ha by (apply In_ownKeys; now left).
  rewrite H in Ha. destruct Ha.
Qed.

Lemma In_array_keys (k : string) (len : nat) :
  In k (array_keys len)
  <-> exists i, i < len /\ k = index_name (N.of_nat i).
Proof.
  unfold array_keys. rewrite in_map_iff. split.
  - intros [i [<- H]]. apply in_seq in H. exists i. split; [lia | reflexivity].
  - intros [i [H ->]]. exists i. split; [reflexivity | apply in_seq; lia].
Qed.

Lemma NoDup_array_keys (len : nat) : NoDup (array_keys len).
Proof.
  apply Injective_map_NoDup; [|apply seq_NoDup].
  intros i j H. apply index_name_inj in H. lia.
Qed.

Lemma NoDup_Object_keys (v : jsval) : NoDup (Object_keys v).
Proof.
  destruct v; simpl; try constructor;
    auto using NoDup_array_keys, NoDup_ownKeys.
Qed.

Lemma In_Object_keys (k : string) (o : list (string * jsval)) :
  In k (Object_keys (VObject o)) <-> In k (map fst o).
Proof. apply In_ownKeys. Qed.

(** A name that is not an own key reads as something that is not an
    object. *)
Lemma get_absent (v : jsval) (k : string) :
  ~ In k (Object_keys v) -> instanceofObject (get v k) = false.
Proof.
  destruct v; simpl; try reflexivity.
  - intros _. destruct (array_index k); [destruct (_ <? _)%N|];
      [destruct (String.get _ s)| |destruct (String.eqb k "length")];
      reflexivity.
  - intros H. destruct (array_index k) as [n|] eqn:E.
    + destruct (n <? N.of_nat (List.length elements))%N eqn:L; [|reflexivity].
      exfalso. apply H, In_array_keys. apply N.ltb_lt in L.
      exists (N.to_nat n). split; [lia|].
      rewrite N2Nat.id. symmetry. now apply array_index_name.
    + destruct (String.eqb k "length"); reflexivity.
  - intros H. rewrite In_ownKeys in H.
    apply (assoc_get_None String.eqb string_eqb_spec) in H.
    now rewrite H.
Qed.

(** ** Depth *)

Lemma depth_element (x : jsval) (l : list jsval) :
  In x l -> depth x < depth (VArray l).
Proof.
  simpl. induction l as [|a l IH]; simpl; [tauto|].
  intros [-> | H]; [lia|]. specialize (IH H). lia.
Qed.

Lemma depth_property (k : string) (x : jsval) (o : list (string * jsval)) :
  In (k, x) o -> depth x < depth (VObject o).
Proof.
  simpl. induction o as [|a o IH]; simpl; [tauto|].
  intros [-> | H]; [simpl; lia|]. specialize (IH H). lia.
Qed.

Lemma depth_get (v : jsval) (k : string) :
  instanceofObject v = true -> depth (get v k) < depth v.
Proof.
  destruct v; try discriminate; intros _.
  - unfold get. destruct (array_index k) as [n|].
    + destruct (_ <? _)%N eqn:L; [|simpl; lia].
      apply depth_element, nth_In. apply N.ltb_lt in L. lia.
    + destruct (String.eqb k "length"); simpl; lia.
  - unfold get.
    destruct (assoc_get String.eqb k properties) as [x|] eqn:E; [|simpl; lia].
    apply (assoc_get_In String.eqb string_eqb_spec) in E.
    eapply depth_property; eassumption.
Qed.

(** ** Passes and their outcomes *)

Lemma outcomes_length {St A B} (f : A -> M St B) (l : list A) :
  forall s cs s', outcomes f l s = Some (cs, s') ->
                  List.length cs = List.length l.
Proof.
  induction l as [|a l IH]; simpl; intros s cs s'.
  - now intros [= <- _].
  - destruct (f a s) as [[c s1]|]; [|discriminate].
    destruct (outcomes f l s1) as [[cs1 s2]|] eqn:E; [|discriminate].
    intros [= <- _]. simpl. f_equal. eapply IH; eassumption.
Qed.

Lemma outcomes_total {St A B} (f : A -> M St B) (l : list A) :
  (forall a s, In a l -> f a s <> None) ->
  forall s, exists cs s', outcomes f l s = Some (cs, s').
Proof.
  induction l as [|a l IH]; simpl; intros H s; [eauto|].
  destruct (f a s) as [[c s1]|] eqn:E; [|exfalso; eapply H; eauto].
  destruct (IH (fun b t Hb => H b t (or_intror Hb)) s1) as [cs [s2 ->]].
  eauto.
Qed.

(** When no member touches the state and each returns [g] of itself,
    the outcomes are the results, in order. *)
Lemma outcomes_pure {St A B} (f : A -> M St B) (g : A -> B) (l : list A)
  (s : St) :
  (forall a, In a l -> f a s = Some (Return (g a), s)) ->
  outcomes f l s = Some (map (fun a => Return (g a)) l, s).
Proof.
  induction l as [|a l IH]; simpl; intros H; [reflexivity|].
  rewrite (H a (or_introl eq_refl)), IH; auto.
Qed.

Lemma In_thrown {K A} (ks : list K) (cs : list (completion A)) k e :
  In (k, e) (thrown ks cs) <-> outcome ks cs k (Throw e).
Proof.
  unfold outcome. revert cs.
  induction ks as [|k0 ks IH]; intros [|[a|e0] cs]; simpl;
    try (split; [tauto | intros [[|i] [H1 H2]]; simpl in *; discriminate]).
  - rewrite IH. split.
    + intros [i H]. now exists (S i).
    + intros [[|i] [H1 H2]]; simpl in *; [discriminate | eauto].
  - rewrite IH. split.
    + intros [[= <- <-] | [i H]]; [now exists 0 | now exists (S i)].
    + intros [[|i] [H1 H2]]; simpl in *; [left; congruence | eauto].
Qed.

Lemma In_kept {K A} (ks : list K) (cs : list (completion A)) k a :
  In (k, a) (kept ks cs) <-> outcome ks cs k (Return a).
Proof.
  unfold outcome. revert cs.
  induction ks as [|k0 ks IH]; intros [|[a0|e0] cs]; simpl;
    try (split; [tauto | intros [[|i] [H1 H2]]; simpl in *; discriminate]).
  - rewrite IH. split.
    + intros [[= <- <-] | [i H]]; [now exists 0 | now exists (S i)].
    + intros [[|i] [H1 H2]]; simpl in *; [left; congruence | eauto].
  - rewrite IH. split.
    + intros [i H]. now exists (S i).
    + intros [[|i] [H1 H2]]; simpl in *; [discriminate | eauto].
Qed.

Lemma thrown_nil {K A} (ks : list K) (cs : list (completion A)) :
  List.length cs = List.length ks ->
  truthy_length (map fst (thrown ks cs)) = existsb is_throw cs.
Proof.
  revert cs. induction ks as [|k ks IH]; intros [|[a|e] cs]; simpl;
    try discriminate; try reflexivity.
  intros [= H]. now apply IH.
Qed.

Lemma kept_all {K A} (ks : list K) (cs : list (completion A)) :
  List.length cs = List.length ks -> existsb is_throw cs = false ->
  map fst (kept ks cs) = ks.
Proof.
  revert cs. induction ks as [|k ks IH]; intros [|[a|e] cs]; simpl;
    try discriminate; try reflexivity.
  intros [= H] E. f_equal. now apply IH.
Qed.

Lemma kept_keys_incl {K A} (ks : list K) (cs : list (completion A)) k :
  In k (map fst (kept ks cs)) -> In k ks.
Proof.
  rewrite in_map_iff. intros [[k' a] [<- H]].
  apply In_kept in H as [i [H _]]. eapply nth_error_In; eassumption.
Qed.

Lemma thrown_keys_incl {K A} (ks : list K) (cs : list (completion A)) k :
  In k (map fst (thrown ks cs)) -> In k ks.
Proof.
  rewrite in_map_iff. intros [[k' a] [<- H]].
  apply In_thrown in H as [i [H _]]. eapply nth_error_In; eassumption.
Qed.

Lemma NoDup_kept {K A} (ks : list K) (cs : list (completion A)) :
  NoDup ks -> NoDup (map fst (kept ks cs)).
Proof.
  intros N. revert cs.
  induction N as [|k ks Hk N IH]; intros [|[a|e] cs]; simpl;
    try constructor; auto.
  intros H. now apply kept_keys_incl in H.
Qed.

Lemma NoDup_thrown {K A} (ks : list K) (cs : list (completion A)) :
  NoDup ks -> NoDup (map fst (thrown ks cs)).
Proof.
  intros N. revert cs.
  induction N as [|k ks Hk N IH]; intros [|[a|e] cs]; simpl;
    try constructor; auto.
  intros H. now apply thrown_keys_incl in H.
Qed.


(** With distinct keys, a key has one outcome. *)
Lemma outcome_functional {K A} (ks : list K) (cs : list (completion A))
  k c1 c2 :
  NoDup ks -> outcome ks cs k c1 -> outcome ks cs k c2 -> c1 = c2.
Proof.
  intros N [i [Hi Ci]] [j [Hj Cj]].
  assert (i = j).
  { eapply (proj1 (NoDup_nth_error ks) N).
    - apply nth_error_Some. congruence.
    - congruence. }
  congruence.
Qed.

(** *** The loop of [processValueList] *)

Lemma processValueList_loop_spec {St} (pv : jsval -> jsval -> M St jsval)
  (typeName : jsval) (l : list jsval) :
  forall i newList errorIndices s cs s',
    outcomes (fun v => pv v typeName) l s = Some (cs, s') ->
    (forall k, In k (map fst errorIndices) -> k < i) ->
    processValueList_loop pv l typeName i newList errorIndices s
    = Some (Return (newList ++ returned cs,
                    errorIndices ++ thrown (seq i (List.length l)) cs), s').
Proof.
  induction l as [|a l IH]; simpl; intros i nl ei s cs s' H Hi.
  - injection H as <- <-. simpl. now rewrite !app_nil_r.
  - unfold bind, try.
    destruct (pv a typeName s) as [[c s1]|]; [|discriminate].
    destruct (outcomes _ l s1) as [[cs1 s2]|] eqn:E; [|discriminate].
    injection H as <- <-. destruct c as [x|e]; simpl.
    + rewrite (IH _ _ _ _ _ _ E), <- app_assoc; [reflexivity|].
      intros k Hk. specialize (Hi k Hk). lia.
    + rewrite (assoc_set_fresh Nat.eqb nat_eqb_spec).
      * rewrite (IH _ _ _ _ _ _ E), <- app_assoc; [reflexivity|].
        intros k. rewrite map_app, in_app_iff. simpl.
        intros [Hk | [<- | []]]; [specialize (Hi k Hk)|]; lia.
      * intros Hk. specialize (Hi i Hk). lia.
Qed.

Lemma processValueList_body_spec {St} (pv : jsval -> jsval -> M St jsval)
  (typeName : jsval) (l : list jsval) (s : St) cs s' :
  outcomes (fun v => pv v typeName) l s = Some (cs, s') ->
  processValueList_body pv (VArray l) typeName s
  = Some (if existsb is_throw cs
          then Throw (VALUE_LIST_ERROR (thrown (seq 0 (List.length l)) cs))
          else Return (VArray (returned cs)), s').
Proof.
  intros H. unfold processValueList_body, bind.
  rewrite (processValueList_loop_spec pv typeName l 0 [] [] s cs s' H);
    [|intros k []].
  simpl. rewrite thrown_nil.
  - now destruct (existsb is_throw cs).
  - rewrite length_seq. eapply outcomes_length; eassumption.
Qed.

(** *** The loop of [processItem] *)

Lemma truthy_length_ownKeys (l : list string) :
  truthy_length (ownKeys l) = truthy_length l.
Proof.
  destruct l as [|a l]; [reflexivity|].
  destruct (ownKeys (a :: l)) eqn:E; [|reflexivity].
  apply (proj1 (ownKeys_nil _)) in E. discriminate E.
Qed.

Lemma getFieldList_NoDup {St} (this : AbstractTypeProcessor St) T fieldList :
  getFieldList this T = Return fieldList -> NoDup fieldList.
Proof.
  unfold getFieldList, cbind.
  destruct (getTypeDefinition this T) as [td|]; [|discriminate].
  destruct (instanceofObject _); [|discriminate].
  intros [= <-]. apply NoDup_Object_keys.
Qed.

Lemma settable_all {V} (l : list (string * V)) :
  ~ In "__proto__" (map fst l) -> settable l = l.
Proof.
  induction l as [|[k v] l IH]; simpl; intros H; [reflexivity|].
  destruct (String.eqb k "__proto__") eqn:E; simpl.
  - apply String.eqb_eq in E. tauto.
  - rewrite IH; [reflexivity | tauto].
Qed.

Lemma settable_incl {V} (l : list (string * V)) (k : string) :
  In k (map fst (settable l)) -> In k (map fst l).
Proof.
  rewrite !in_map_iff. intros [p [E H]].
  apply filter_In in H as [H _]. eauto.
Qed.

(** What the loop of [processItem] leaves in its two tables, for any
    field list. *)
Lemma processItem_loop_run {St} (this : AbstractTypeProcessor St)
  (pv : jsval -> jsval -> M St jsval) (item typeName : jsval)
  (fieldList : list string) :
  forall newItem errorFields s cs s',
    outcomes (fun f => processFieldValue_body this pv (get item f) typeName f)
      fieldList s = Some (cs, s') ->
    NoDup fieldList ->
    (forall f, In f fieldList ->
               ~ In f (map fst newItem) /\ ~ In f (map fst errorFields)) ->
    processItem_loop this pv item typeName fieldList newItem errorFields s
    = Some (Return (newItem ++ settable (kept fieldList cs),
                    errorFields ++ settable (thrown fieldList cs)), s').
Proof.
  induction fieldList as [|f fl IH]; simpl; intros ni ef s cs s' H N Hf.
  - injection H as <- <-. simpl. now rewrite !app_nil_r.
  - unfold bind at 1. unfold try.
    destruct (processFieldValue_body this pv (get item f) typeName f s)
      as [[c s1]|]; [|discriminate].
    destruct (outcomes _ fl s1) as [[cs1 s2]|] eqn:E; [|discriminate].
    injection H as <- <-. inversion N as [|? ? Nf N']; subst.
    destruct (Hf f (or_introl eq_refl)) as [Hni Hef].
    unfold assign, settable. simpl.
    destruct c as [x|e]; simpl;
      destruct (String.eqb f "__proto__") eqn:P; simpl;
      try (rewrite (assoc_set_fresh String.eqb string_eqb_spec)
            by assumption);
      rewrite (IH _ _ _ _ _ E N'); rewrite <- ?app_assoc;
      try reflexivity;
      intros g Hg; destruct (Hf g (or_intror Hg)) as [G1 G2];
      rewrite ?map_app, ?in_app_iff; simpl; split; try assumption;
      intros [G | [<- | []]]; tauto.
Qed.

Lemma processItem_body_run {St} (this : AbstractTypeProcessor St)
  (pv : jsval -> jsval -> M St jsval) (item typeName : jsval)
  (fieldList : list string) (s : St) cs s' :
  instanceofObject item = true ->
  getFieldList this typeName = Return fieldList ->
  outcomes (fun f => processFieldValue_body this pv (get item f) typeName f)
    fieldList s = Some (cs, s') ->
  processItem_body this pv item typeName s
  = Some (if truthy_length (map fst (settable (thrown fieldList cs)))
          then Throw (ITEM_ERROR (settable (thrown fieldList cs)))
          else Return (VObject (settable (kept fieldList cs))), s').
Proof.
  intros Hi Hf H. unfold processItem_body. rewrite Hi, Hf.
  unfold bind at 1. unfold await. unfold bind.
  rewrite (processItem_loop_run this pv item typeName fieldList [] [] s
             cs s' H);
    [|eapply getFieldList_NoDup; eassumption|intros f _; split; intros []].
  simpl. rewrite truthy_length_ownKeys.
  now destruct (truthy_length _).
Qed.

(** The same when no field is named [__proto__]: every outcome is in
    its table. *)
Lemma processItem_body_spec {St} (this : AbstractTypeProcessor St)
  (pv : jsval -> jsval -> M St jsval) (item typeName : jsval)
  (fieldList : list string) (s : St) cs s' :
  instanceofObject item = true ->
  getFieldList this typeName = Return fieldList ->
  ~ In "__proto__" fieldList ->
  outcomes (fun f => processFieldValue_body this pv (get item f) typeName f)
    fieldList s = Some (cs, s') ->
  processItem_body this pv item typeName s
  = Some (if existsb is_throw cs
          then Throw (ITEM_ERROR (thrown fieldList cs))
          else Return (VObject (kept fieldList cs)), s').
Proof.
  intros Hi Hf Hp H.
  rewrite (processItem_body_run _ _ _ _ _ _ _ _ Hi Hf H).
  rewrite !settable_all.
  - rewrite thrown_nil; [reflexivity|].
    eapply outcomes_length; eassumption.
  - intros I. now apply kept_keys_incl in I.
  - intros I. now apply thrown_keys_incl in I.
Qed.

(** ** Termination: a traversal needs no more fuel than the depth of
    its input *)

Section Termination.
Context {St : Type} (this : AbstractTypeProcessor St).
Variable pv : jsval -> jsval -> M St jsval.
Variable n : nat.
Hypothesis pv_total :
  forall x, depth x < n -> forall T s, pv x T s <> None.

Lemma processValueList_body_total (valueList typeName : jsval) (s : St) :
  depth valueList <= n ->
  processValueList_body pv valueList typeName s <> None.
Proof.
  intros D.
  destruct valueList as [| | | | |l|];
    try (unfold processValueList_body; simpl; discriminate).
  destruct (outcomes_total (fun v => pv v typeName) l) with (s := s)
    as [cs [s' H]].
  - intros a t Ha. apply pv_total.
    apply depth_element in Ha. lia.
  - rewrite (processValueList_body_spec _ _ _ _ _ _ H). discriminate.
Qed.

Lemma processFieldValue_body_total (value typeName : jsval)
  (fieldName : string) (s : St) :
  depth value < n ->
  processFieldValue_body this pv value typeName fieldName s <> None.
Proof.
  intros D. unfold processFieldValue_body, bind, await.
  destruct (getFieldDescriptor this typeName fieldName) as [fd|];
    [|discriminate].
  destruct (truthy (get fd "multiple")).
  - apply processValueList_body_total. lia.
  - now apply pv_total.
Qed.

Lemma processItem_body_total (item typeName : jsval) (s : St) :
  depth item <= n ->
  processItem_body this pv item typeName s <> None.
Proof.
  intros D. destruct (instanceofObject item) eqn:Hi.
  - destruct (getFieldList this typeName) as [fl|e] eqn:Hf.
    + destruct (outcomes_total
                  (fun f => processFieldValue_body this pv (get item f)
                              typeName f) fl) with (s := s)
        as [cs [s' H]].
      * intros f t _. apply processFieldValue_body_total.
        pose proof (depth_get item f Hi). lia.
      * rewrite (processItem_body_run _ _ _ _ _ _ _ _ Hi Hf H).
        discriminate.
    + unfold processItem_body, bind, await. rewrite Hi, Hf. discriminate.
  - unfold processItem_body. rewrite Hi.
    destruct (negb (valueExists item)); discriminate.
Qed.
End Termination.

Lemma processValue_total {St} (this : AbstractTypeProcessor St) (fuel : nat) :
  forall value, depth value < fuel ->
  forall typeName s, processValue this fuel value typeName s <> None.
Proof.
  induction fuel as [|n IH]; intros v D T s; [lia|].
  simpl. unfold bind, await.
  destruct (getTypeDefinition this T) as [td|]; [|discriminate].
  destruct (truthy (get td "primitive")); [unfold invoke; discriminate|].
  destruct (truthy (get td "remote")); [unfold invoke; discriminate|].
  apply processItem_body_total with (n := n); [exact IH | lia].
Qed.

Lemma processItem_total {St} (this : AbstractTypeProcessor St) fuel item T s :
  depth item <= fuel -> processItem this fuel item T s <> None.
Proof.
  intros D. apply processItem_body_total with (n := fuel); [|assumption].
  apply processValue_total.
Qed.

Lemma processValueList_total {St} (this : AbstractTypeProcessor St)
  fuel valueList T s :
  depth valueList <= fuel -> processValueList this fuel valueList T s <> None.
Proof.
  intros D. apply processValueList_body_total with (n := fuel); [|assumption].
  apply processValue_total.
Qed.

Lemma existsb_is_throw {A} (cs : list (completion A)) :
  existsb is_throw cs = true <-> exists i e, nth_error cs i = Some (Throw e).
Proof.
  induction cs as [|[a|e] cs IH]; simpl.
  - split; [discriminate | intros [[|i] [e H]]; discriminate].
  - rewrite IH. split.
    + intros [i [e H]]. now exists (S i), e.
    + intros [[|i] [e H]]; simpl in H; [discriminate | eauto].
  - split; [intros _; now exists 0, e | reflexivity].
Qed.

Lemma returned_all {A} (cs : list (completion A)) :
  existsb is_throw cs = false -> map Return (returned cs) = cs.
Proof.
  induction cs as [|[a|e] cs IH]; simpl; intros H;
    [reflexivity | f_equal; auto | discriminate].
Qed.



(** ** The list processor *)



(** C9.  On the empty list [processValueList] returns the empty list,
    for every type name, declared or not, every type map and every
    amount of fuel: the state of the hooks is untouched, and the same
    holds of the method body whatever [processValue] it is given, so
    neither a type lookup nor a hook is involved. *)
Theorem processValueList_empty {St} (this : AbstractTypeProcessor St)
  (pv : jsval -> jsval -> M St jsval) (fuel : nat) (typeName : jsval)
  (s : St) :
  processValueList this fuel (VArray []) typeName s
  = Some (Return (VArray []), s)
  /\ processValueList_body pv (VArray []) typeName s
     = Some (Return (VArray []), s).
Proof. split; reflexivity. Qed.

(** C7.  An absent input ([undefined] or [null]) is returned as it is by
    [processValueList] and by [processItem], for every type name and
    every amount of fuel, with the state of the hooks untouched; an
    input that exists and is not an array makes [processValueList] throw
    INVALID_VALUE_LIST, and one that exists and is not an object makes
    [processItem] throw INVALID_ITEM. *)
Theorem absent_and_misshapen_inputs {St} (this : AbstractTypeProcessor St)
  (fuel : nat) (input typeName : jsval) (s : St) :
  (valueExists input = false ->
   processValueList this fuel input typeName s = Some (Return input, s)
   /\ processItem this fuel input typeName s = Some (Return input, s))
  /\ (valueExists input = true -> instanceofArray input = false ->
      processValueList this fuel input typeName s
      = Some (Throw INVALID_VALUE_LIST, s))
  /\ (valueExists input = true -> instanceofObject input = false ->
      processItem this fuel input typeName s = Some (Throw INVALID_ITEM, s)).
Proof.
  unfold processValueList, processItem.
  destruct input; simpl; repeat split; intros; try discriminate; reflexivity.
Qed.

(** ** The item processor *)

(** X17.  For a type with a declared [fields] map (its field list is
    [fieldList]) none of whose fields is named [__proto__], and an item
    that is an object read through its own properties: once the fields,
    processed one after the other, have each completed in their own way
    ([cs]), [processItem] completes.  If [F] is exactly the set of
    fields whose processing threw, then: when [F] is not empty,
    [processItem] throws ITEM_ERROR whose [fields] table has exactly the
    keys of [F], each bound to the error of its field; when [F] is empty
    it throws nothing and returns a record in which every declared field
    is present and holds the value its processing returned. *)
Theorem processItem_raises_failed_fields {St}
  (this : AbstractTypeProcessor St) (fuel : nat) (item typeName : jsval)
  (fieldList : list string) (s : St) cs s' :
  instanceofObject item = true ->
  plain_name typeName = true ->
  getFieldList this typeName = Return fieldList ->
  ~ In "__proto__" fieldList ->
  (forall f, In f fieldList -> reads_own item f = true) ->
  outcomes (fun f => processFieldValue this fuel (get item f) typeName f)
    fieldList s = Some (cs, s') ->
  List.length cs = List.length fieldList
  /\ forall F : list string,
      (forall f, In f F <-> exists e, outcome fieldList cs f (Throw e)) ->
      (F <> [] ->
       exists errorFields,
         processItem this fuel item typeName s
         = Some (Throw (ITEM_ERROR errorFields), s')
         /\ (forall f, In f (map fst errorFields) <-> In f F)
         /\ (forall f e, In (f, e) errorFields
                         <-> outcome fieldList cs f (Throw e)))
      /\ (F = [] ->
          exists newItem,
            processItem this fuel item typeName s
            = Some (Return (VObject newItem), s')
            /\ forall f, In f fieldList ->
                 In f (Object_keys (VObject newItem))
                 /\ outcome fieldList cs f
                      (Return (get (VObject newItem) f))).
Proof.
  intros Hi _ Hf Hp _ H.
  pose proof (outcomes_length _ _ _ _ _ H) as L.
  pose proof (getFieldList_NoDup _ _ _ Hf) as N.
  split; [exact L|].
  intros F HF. unfold processItem.
  rewrite (processItem_body_spec _ _ _ _ _ _ _ _ Hi Hf Hp H).
  split.
  - intros NE. destruct (existsb is_throw cs) eqn:E.
    + eexists. split; [reflexivity|]. split; [|intros f e; apply In_thrown].
      intros f. rewrite HF, in_map_iff. split.
      * intros [[g e] [<- Hg]]. exists e. now apply In_thrown.
      * intros [e He]. exists (f, e).
        split; [reflexivity | now apply In_thrown].
    + exfalso. destruct F as [|f F]; [now apply NE|].
      destruct (proj1 (HF f) (or_introl eq_refl)) as [e [i [_ He]]].
      assert (existsb is_throw cs = true) by (apply existsb_is_throw; eauto).
      congruence.
  - intros ->. destruct (existsb is_throw cs) eqn:E.
    + apply existsb_is_throw in E as [i [e He]].
      assert (i < List.length fieldList) as Li
          by (rewrite <- L; apply nth_error_Some; congruence).
      apply nth_error_Some in Li.
      destruct (nth_error fieldList i) as [f|] eqn:Ef; [|congruence].
      destruct (proj2 (HF f)). exists e, i. auto.
    + eexists. split; [reflexivity|]. intros f Hin.
      pose proof (kept_all fieldList cs L E) as KA.
      assert (In f (map fst (kept fieldList cs))) as Hk by (now rewrite KA).
      split; [now apply In_Object_keys|].
      apply in_map_iff in Hk as [[g x] [Hg Hx]]. simpl in Hg. subst g.
      unfold get.
      rewrite (assoc_get_NoDup String.eqb string_eqb_spec f x);
        [now apply In_kept | now rewrite KA | exact Hx].
Qed.

(** C1 at a field named [__proto__].  The type map is parsed from JSON
    and declares the fields [__proto__] and [a]; the primitive hook
    rejects what is not a string.  On the item parsed from
    [{"__proto__": 0, "a": "x"}] exactly the field [__proto__] fails,
    yet [processItem] throws nothing and returns [{a: 'x'}]: the
    assignment [errorFields['__proto__'] = error] creates no key, so the
    table of errors stays empty. *)
Theorem processItem_loses_the_error_of_proto_field :
  getFieldList (strings_only protoFieldTypeMap) (VString "P")
  = Return ["__proto__"; "a"]
  /\ outcomes
       (fun f =>
          processFieldValue (strings_only protoFieldTypeMap) 1
            (get (VObject [("__proto__", VNumber 0); ("a", VString "x")]) f)
            (VString "P") f)
       ["__proto__"; "a"] tt
     = Some ([Throw (Thrown (VNumber 0)); Return (VString "x")], tt)
  /\ processItem (strings_only protoFieldTypeMap) 1
       (VObject [("__proto__", VNumber 0); ("a", VString "x")])
       (VString "P") tt
     = Some (Return (VObject [("a", VString "x")]), tt).
Proof. repeat split. Qed.

(** C10.  For a declared type whose [fields] is an object with no key,
    [getFieldList] returns the empty list and [processItem] returns the
    empty record on every item that is an object, whatever the fuel and
    without touching the state; MISSING_FIELDS_FOR_TYPE is thrown exactly
    when the type definition has no object under [fields], in particular
    when it has no [fields] at all. *)
Theorem empty_fields_map_is_not_missing {St}
  (this : AbstractTypeProcessor St) (typeName typeDefinition : jsval) :
  getTypeDefinition this typeName = Return typeDefinition ->
  (instanceofObject (get typeDefinition "fields") = true ->
   Object_keys (get typeDefinition "fields") = [] ->
   getFieldList this typeName = Return []
   /\ forall fuel item s,
       instanceofObject item = true ->
       processItem this fuel item typeName s = Some (Return (VObject []), s))
  /\ (getFieldList this typeName = Throw MISSING_FIELDS_FOR_TYPE
      <-> instanceofObject (get typeDefinition "fields") = false)
  /\ (~ In "fields" (Object_keys typeDefinition) ->
      getFieldList this typeName = Throw MISSING_FIELDS_FOR_TYPE).
Proof.
  intros Ht.
  assert (forall r, getFieldList this typeName = r ->
                    r = if instanceofObject (get typeDefinition "fields")
                        then Return (Object_keys (get typeDefinition "fields"))
                        else Throw MISSING_FIELDS_FOR_TYPE) as G.
  { intros r <-. unfold getFieldList. now rewrite Ht. }
  specialize (G _ eq_refl). repeat split.
  - rewrite G, H, H0. reflexivity.
  - intros fuel item s Hi. unfold processItem, processItem_body.
    rewrite Hi, G, H, H0. reflexivity.
  - rewrite G. destruct (instanceofObject _); [discriminate | reflexivity].
  - intros E. now rewrite G, E.
  - intros A. rewrite G, (get_absent _ _ A). reflexivity.
Qed.

(** ** The value processor *)

(** C4.  For a declared type, [processValue] is exactly one of three
    things, decided by the two flags of the type definition in this
    order: the call of the primitive hook when [primitive] is set, else
    the call of the remote hook when [remote] is set, else [processItem].
    With both flags set the only hook call is that of the primitive
    hook, as the recording subclass shows. *)
Theorem processValue_dispatch :
  (forall St (this : AbstractTypeProcessor St) fuel value typeName
          typeDefinition s,
      getTypeDefinition this typeName = Return typeDefinition ->
      (truthy (get typeDefinition "primitive") = true ->
       processValue this (S fuel) value typeName s
       = Some (processPrimitiveValue this value typeName s))
      /\ (truthy (get typeDefinition "primitive") = false ->
          truthy (get typeDefinition "remote") = true ->
          processValue this (S fuel) value typeName s
          = Some (processRemoteValue this value typeName s))
      /\ (truthy (get typeDefinition "primitive") = false ->
          truthy (get typeDefinition "remote") = false ->
          processValue this (S fuel) value typeName s
          = processItem this fuel value typeName s))
  /\ (forall config_typeMap fuel value typeName typeDefinition log,
         getTypeDefinition (recording config_typeMap) typeName
         = Return typeDefinition ->
         truthy (get typeDefinition "primitive") = true ->
         truthy (get typeDefinition "remote") = true ->
         processValue (recording config_typeMap) (S fuel) value typeName log
         = Some (Return value, log ++ [PrimitiveCall value typeName])).
Proof.
  split.
  - intros St this fuel value typeName td s Ht.
    repeat split; intros; simpl; unfold bind, await; rewrite Ht;
      repeat match goal with H : truthy _ = _ |- _ => rewrite H; clear H end;
      reflexivity.
  - intros tm fuel value typeName td log Ht Hp _.
    simpl. unfold bind, await. rewrite Ht, Hp. reflexivity.
Qed.

(** ** Type names that the type map does not declare *)

Lemma absentType_getTypeDefinition {St} (this : AbstractTypeProcessor St)
  (typeName : jsval) :
  absentType this typeName ->
  getTypeDefinition this typeName = Throw NON_EXISTENT_TYPE.
Proof.
  intros [_ [A _]]. unfold getTypeDefinition.
  rewrite (get_absent _ _ A). now destruct (instanceofObject _).
Qed.

Lemma thrown_all {A} (e : error) (l : list A) (i : nat) :
  thrown (seq i (List.length l)) (map (fun _ => @Throw jsval e) l)
  = map (fun j => (j, e)) (seq i (List.length l)).
Proof.
  revert i. induction l as [|a l IH]; intros i; simpl; [reflexivity|].
  now rewrite IH.
Qed.

Lemma outcomes_all_throw {St A B} (f : A -> M St B) (e : error)
  (l : list A) (s : St) :
  (forall a, f a s = Some (Throw e, s)) ->
  outcomes f l s = Some (map (fun _ => Throw e) l, s).
Proof.
  intros H. induction l as [|a l IH]; simpl; [reflexivity|].
  now rewrite H, IH.
Qed.

(** C5, as the code has it.  For a plain type name that is neither an
    own key of the type map nor the name of a member that the map
    inherits: the five accessors and [processValue] throw
    NON_EXISTENT_TYPE on every input; [processItem] does so on every
    item that is an object; [processValueList] on a non-empty list
    throws VALUE_LIST_ERROR in which every index is bound to
    NON_EXISTENT_TYPE. *)
Theorem absent_type_is_reported {St} (this : AbstractTypeProcessor St)
  (typeName : jsval) :
  absentType this typeName ->
  getTypeDefinition this typeName = Throw NON_EXISTENT_TYPE
  /\ getFieldList this typeName = Throw NON_EXISTENT_TYPE
  /\ (forall fieldName,
         getFieldDescriptor this typeName fieldName = Throw NON_EXISTENT_TYPE)
  /\ (forall featureName,
         getTypeFeature this typeName featureName = Throw NON_EXISTENT_TYPE)
  /\ (forall fieldName featureName,
         getFieldFeature this typeName fieldName featureName
         = Throw NON_EXISTENT_TYPE)
  /\ (forall fuel value s,
         processValue this (S fuel) value typeName s
         = Some (Throw NON_EXISTENT_TYPE, s))
  /\ (forall fuel item s,
         instanceofObject item = true ->
         processItem this fuel item typeName s
         = Some (Throw NON_EXISTENT_TYPE, s))
  /\ (forall fuel elements s,
         elements <> [] ->
         processValueList this (S fuel) (VArray elements) typeName s
         = Some (Throw (VALUE_LIST_ERROR
                          (map (fun i => (i, NON_EXISTENT_TYPE))
                             (seq 0 (List.length elements)))), s)).
Proof.
  intros A. pose proof (absentType_getTypeDefinition this typeName A) as G.
  assert (forall fuel value s,
             processValue this (S fuel) value typeName s
             = Some (Throw NON_EXISTENT_TYPE, s)) as PV.
  { intros. simpl. unfold bind, await. now rewrite G. }
  repeat split.
  - exact G.
  - unfold getFieldList. now rewrite G.
  - intros. unfold getFieldDescriptor. now rewrite G.
  - intros. unfold getTypeFeature. now rewrite G.
  - intros. unfold getFieldFeature, getFieldDescriptor. now rewrite G.
  - exact PV.
  - intros fuel item s Hi. unfold processItem, processItem_body, getFieldList.
    rewrite Hi, G. reflexivity.
  - intros fuel elements s NE. unfold processValueList.
    rewrite (processValueList_body_spec _ _ _ _
               (map (fun _ => Throw NON_EXISTENT_TYPE) elements) s).
    + rewrite thrown_all. destruct elements; [congruence | reflexivity].
    + apply outcomes_all_throw. intros a. apply PV.
Qed.

(** C5 as it is stated fails: for the undeclared name ['Missing'],
    [processValueList] returns the empty list on the empty list and
    throws VALUE_LIST_ERROR (not NON_EXISTENT_TYPE) on [[1]], and
    [processItem] returns [null] on [null] and throws INVALID_ITEM on
    [1]. *)
Lemma absent_type_not_always_NON_EXISTENT_TYPE :
  absentType (@new unit contactTypeMap) (VString "Missing")
  /\ processValueList (new contactTypeMap) 1 (VArray []) (VString "Missing") tt
     = Some (Return (VArray []), tt)
  /\ processValueList (new contactTypeMap) 1 (VArray [VNumber 1])
       (VString "Missing") tt
     = Some (Throw (VALUE_LIST_ERROR [(0, NON_EXISTENT_TYPE)]), tt)
  /\ processItem (new contactTypeMap) 1 VNull (VString "Missing") tt
     = Some (Return VNull, tt)
  /\ processItem (new contactTypeMap) 1 (VNumber 1) (VString "Missing") tt
     = Some (Throw INVALID_ITEM, tt)
  /\ ~ (forall St (this : AbstractTypeProcessor St) typeName,
           absentType this typeName ->
           forall fuel input s,
             processValueList this (S fuel) input typeName s
             = Some (Throw NON_EXISTENT_TYPE, s))
  /\ ~ (forall St (this : AbstractTypeProcessor St) typeName,
           absentType this typeName ->
           forall fuel input s,
             processItem this (S fuel) input typeName s
             = Some (Throw NON_EXISTENT_TYPE, s)).
Proof.
  assert (absentType (@new unit contactTypeMap) (VString "Missing")) as A.
  { unfold absentType. simpl. split; [reflexivity|]. split; [|reflexivity].
    intros [H | [H | []]]; discriminate H. }
  split; [exact A|]. do 4 (split; [reflexivity|]). split.
  - intros H.
    specialize (H unit (new contactTypeMap) (VString "Missing") A
                  0 (VArray []) tt).
    discriminate H.
  - intros H.
    specialize (H unit (new contactTypeMap) (VString "Missing") A 0 VNull tt).
    discriminate H.
Qed.


(** ** The base class on conforming inputs *)

Lemma assoc_get_map {V} (h : string -> V) (k : string) (l : list string) :
  In k l -> assoc_get String.eqb k (map (fun f => (f, h f)) l) = Some (h k).
Proof.
  induction l as [|a l IH]; simpl; [tauto|].
  destruct (String.eqb a k) eqn:E.
  - apply String.eqb_eq in E. now subst.
  - apply String.eqb_neq in E. intros [H | H]; [congruence | auto].
Qed.

Lemma map_fst_pair {V} (h : string -> V) (l : list string) :
  map fst (map (fun f => (f, h f)) l) = l.
Proof. rewrite map_map. simpl. apply map_id. Qed.

Lemma kept_map_Return {K A} (g : K -> A) (l : list K) :
  kept l (map (fun a => Return (g a)) l) = map (fun a => (a, g a)) l.
Proof. induction l as [|a l IH]; simpl; [reflexivity | now rewrite IH]. Qed.

Lemma returned_map_Return {K A} (g : K -> A) (l : list K) :
  returned (map (fun a => Return (g a)) l) = map g l.
Proof. induction l as [|a l IH]; simpl; [reflexivity | now rewrite IH]. Qed.

Lemma no_throw_map_Return {K A} (g : K -> A) (l : list K) :
  existsb is_throw (map (fun a => Return (g a)) l) = false.
Proof. induction l as [|a l IH]; simpl; [reflexivity | exact IH]. Qed.

Lemma owns_In (item : jsval) (k : string) :
  owns item k = true <-> In k (Object_keys item).
Proof.
  unfold owns. rewrite existsb_exists. split.
  - intros [x [H E]]. apply String.eqb_eq in E. now subst.
  - intros H. exists k. split; [exact H | apply String.eqb_refl].
Qed.

Section Conforming.
Context {St : Type} (this : AbstractTypeProcessor St) (s : St).
Variable pv : jsval -> jsval -> M St jsval.
Variable cv : jsval -> jsval -> bool.
Variable rv : jsval -> jsval -> jsval.
Hypothesis pv_conforming :
  forall value typeName,
    cv value typeName = true ->
    exists out, pv value typeName s = Some (Return out, s)
                /\ deepEqual out (rv value typeName).

Lemma processValueList_conforming (valueList typeName : jsval) :
  conformsList cv valueList typeName = true ->
  exists out,
    processValueList_body pv valueList typeName s = Some (Return out, s)
    /\ deepEqual out (restrictList rv valueList typeName).
Proof.
  destruct valueList as [| | | | |l|]; simpl; try discriminate;
    try (intros _; eexists; split; [reflexivity | constructor]).
  intros C. rewrite forallb_forall in C.
  set (g := fun v => result_of s (pv v typeName)).
  assert (forall a, In a l ->
                    pv a typeName s = Some (Return (g a), s)
                    /\ deepEqual (g a) (rv a typeName)) as G.
  { intros a Ha. destruct (pv_conforming a typeName (C a Ha)) as [x [E D]].
    unfold g, result_of. rewrite E. auto. }
  exists (VArray (map g l)). split.
  - change (processValueList_body pv (VArray l) typeName s
            = Some (Return (VArray (map g l)), s)).
    rewrite (processValueList_body_spec pv typeName l s
               (map (fun a => Return (g a)) l) s).
    + now rewrite no_throw_map_Return, returned_map_Return.
    + apply outcomes_pure. intros a Ha. apply G, Ha.
  - apply deepEqual_array. clear C.
    induction l as [|a l IH]; simpl; constructor.
    + apply G. now left.
    + apply IH. intros b Hb. apply G. now right.
Qed.

Lemma processFieldValue_conforming (item typeName : jsval)
  (fieldName : string) :
  conformsField this cv item typeName fieldName = true ->
  owns item fieldName = true
  /\ exists out,
      processFieldValue_body this pv (get item fieldName) typeName fieldName s
      = Some (Return out, s)
      /\ deepEqual out
           (restrictField this rv typeName fieldName (get item fieldName)).
Proof.
  unfold conformsField, processFieldValue_body, restrictField, bind, await.
  destruct (getFieldDescriptor this typeName fieldName) as [fd|];
    [|discriminate].
  intros C. apply andb_true_iff in C as [O C].
  apply andb_true_iff in O as [O _]. split; [exact O|].
  destruct (truthy (get fd "multiple")).
  - now apply processValueList_conforming.
  - now apply pv_conforming.
Qed.

Lemma processItem_conforming (item typeName : jsval) :
  conformsItem_body this cv item typeName = true ->
  exists newItem fieldList,
    getFieldList this typeName = Return fieldList
    /\ instanceofObject item = true
    /\ processItem_body this pv item typeName s
       = Some (Return (VObject newItem), s)
    /\ (forall k, In k (Object_keys (VObject newItem)) <-> In k fieldList)
    /\ deepEqual (VObject newItem) (restrictItem_body this rv item typeName).
Proof.
  unfold conformsItem_body, restrictItem_body.
  destruct item as [| | | | | |o]; try discriminate.
  destruct (getFieldList this typeName) as [fl|] eqn:Hf; [|discriminate].
  intros C. apply andb_true_iff in C as [P C].
  apply andb_true_iff in P as [_ P].
  assert (~ In "__proto__" fl) as Hp.
  { intros I. apply negb_true_iff in P.
    assert (existsb (String.eqb "__proto__") fl = true) as X
        by (apply existsb_exists; exists "__proto__"; auto).
    congruence. }
  rewrite forallb_forall in C.
  set (item := VObject o) in *.
  set (g := fun f => result_of s (processFieldValue_body this pv (get item f)
                                  typeName f)).
  assert (forall f, In f fl ->
            In f (map fst o)
            /\ processFieldValue_body this pv (get item f) typeName f s
               = Some (Return (g f), s)
            /\ deepEqual (g f) (restrictField this rv typeName f (get item f)))
    as G.
  { intros f Hin.
    destruct (processFieldValue_conforming item typeName f (C f Hin))
      as [O [x [E D]]].
    split; [now apply In_Object_keys, owns_In|].
    unfold g, result_of. rewrite E. auto. }
  exists (map (fun f => (f, g f)) fl), fl.
  split; [reflexivity|]. split; [reflexivity|]. split; [|split].
  - rewrite (processItem_body_spec this pv item typeName fl s
               (map (fun f => Return (g f)) fl) s eq_refl Hf Hp).
    + now rewrite no_throw_map_Return, kept_map_Return.
    + apply outcomes_pure. intros f Hin. apply G, Hin.
  - intros k. now rewrite In_Object_keys, map_fst_pair.
  - assert (forall k, In k (filter (fun k => existsb (String.eqb k) fl)
                              (dedup (map fst o))) <-> In k fl) as K.
    { intros k. rewrite filter_In, In_dedup, existsb_exists. split.
      - intros [_ [x [H E]]]. apply String.eqb_eq in E. now subst.
      - intros H. split; [now apply G|].
        exists k. split; [exact H | apply String.eqb_refl]. }
    apply deepEqual_object.
    + intros k. now rewrite !In_Object_keys, !map_fst_pair, K.
    + intros k. rewrite In_Object_keys, map_fst_pair. intros Hin.
      unfold get at 1 2. rewrite !assoc_get_map by (now rewrite ?K).
      now apply G.
Qed.
End Conforming.

Lemma processValue_conforming {St} (config_typeMap : jsval) (fuel : nat)
  (s : St) :
  forall value typeName,
    conformsValue (@new St config_typeMap) fuel value typeName = true ->
    exists out,
      processValue (new config_typeMap) fuel value typeName s
      = Some (Return out, s)
      /\ deepEqual out
           (restrictValue (@new St config_typeMap) fuel value typeName).
Proof.
  induction fuel as [|n IH]; intros value typeName; simpl; [discriminate|].
  unfold bind, await.
  destruct (getTypeDefinition (new config_typeMap) typeName) as [td|];
    [|discriminate].
  intros C. apply andb_true_iff in C as [_ C]. revert C.
  destruct (truthy (get td "primitive"));
    [intros _; eexists; split; [reflexivity | constructor]|].
  destruct (truthy (get td "remote"));
    [intros _; eexists; split; [reflexivity | constructor]|].
  intros C. apply orb_true_iff in C as [C | C].
  - destruct value; try discriminate C;
      (eexists; split; [reflexivity | constructor]).
  - destruct (processItem_conforming (new config_typeMap) s _ _ _ IH
                value typeName C) as [ni [fl [_ [_ [E [_ D]]]]]].
    eauto.
Qed.

Lemma processItem_loop_outcomes {St} (this : AbstractTypeProcessor St)
  (pv : jsval -> jsval -> M St jsval) (item typeName : jsval)
  (fieldList : list string) :
  forall newItem errorFields s r,
    processItem_loop this pv item typeName fieldList newItem errorFields s
    = Some r ->
    exists cs s',
      outcomes (fun f => processFieldValue_body this pv (get item f) typeName f)
        fieldList s = Some (cs, s').
Proof.
  induction fieldList as [|f fl IH]; simpl; intros ni ef s r H; [eauto|].
  unfold bind at 1 in H. unfold try in H.
  destruct (processFieldValue_body this pv (get item f) typeName f s)
    as [[c s1]|]; [|discriminate].
  destruct c; apply IH in H as [cs [s2 E]]; rewrite E; eauto.
Qed.

(** C3, as the code has it.  With the hooks of the base class (both the
    identity), on an item that conforms to its type and owns every
    declared field, at every level, under a schema with plain type names
    and no field named [__proto__] ([conformsItem]), [processItem]
    returns, with the state untouched, a record that is deeply equal to
    the item restricted to the declared fields of its type.  In
    particular, under the type map
    [{String: {primitive: true}, Contact: {fields: {firstName: {type:
    'String'}}}}], [processItem({firstName: 'Ann'}, 'Contact')] returns
    [{firstName: 'Ann'}]. *)
Theorem processItem_identity_on_conforming :
  (forall St (config_typeMap : jsval) fuel item typeName (s : St),
      conformsItem (@new St config_typeMap) fuel item typeName = true ->
      exists newItem,
        processItem (new config_typeMap) fuel item typeName s
        = Some (Return (VObject newItem), s)
        /\ deepEqual (VObject newItem)
             (restrictItem (@new St config_typeMap) fuel item typeName))
  /\ (forall St (s : St),
         processItem (new contactTypeMap) 1
           (VObject [("firstName", VString "Ann")]) (VString "Contact") s
         = Some (Return (VObject [("firstName", VString "Ann")]), s)).
Proof.
  split; [|reflexivity].
  intros St tm fuel item typeName s C.
  destruct (processItem_conforming (new tm) s _ _ _
              (processValue_conforming tm fuel s) item typeName C)
    as [ni [fl [_ [_ [E [_ D]]]]]].
  exists ni. split; assumption.
Qed.

(** C3 as it is stated fails on a record that omits a declared field:
    [processItem({}, 'Contact')] returns [{firstName: undefined}], which
    has a key that the input restricted to the declared fields, [{}],
    has not. *)
Lemma processItem_adds_an_omitted_field :
  processItem (@new unit contactTypeMap) 1 (VObject []) (VString "Contact") tt
  = Some (Return (VObject [("firstName", VUndefined)]), tt)
  /\ restrictItem (@new unit contactTypeMap) 1 (VObject [])
       (VString "Contact") = VObject []
  /\ ~ deepEqual (VObject [("firstName", VUndefined)]) (VObject []).
Proof.
  split; [reflexivity|]. split; [reflexivity|].
  intros H. inversion H as [| |o1 o2 K _]; subst.
  destruct (proj1 (K "firstName")). simpl. now left.
Qed.

(** X18.  Whenever [processItem] returns on an item that is an object,
    under any hooks and for a type none of whose fields is named
    [__proto__], what it returns is a record whose key set is exactly
    the declared field names of the type: every declared field is
    present and no other property of the item is.  On a conforming item
    the base class does return.  In particular
    [processItem({firstName: 'Ann', extra: 1}, 'Contact')] returns
    [{firstName: 'Ann'}]. *)
Theorem processItem_output_has_declared_keys :
  (forall St (this : AbstractTypeProcessor St) fuel item typeName fieldList
          s out s',
      instanceofObject item = true ->
      plain_name typeName = true ->
      getFieldList this typeName = Return fieldList ->
      ~ In "__proto__" fieldList ->
      processItem this fuel item typeName s = Some (Return out, s') ->
      exists newItem,
        out = VObject newItem
        /\ (forall k, In k (Object_keys out) <-> In k fieldList)
        /\ (forall k, In k (Object_keys item) -> ~ In k fieldList ->
                      ~ In k (Object_keys out)))
  /\ (forall St (config_typeMap : jsval) fuel item typeName (s : St),
         conformsItem (@new St config_typeMap) fuel item typeName = true ->
         exists newItem fieldList,
           getFieldList (@new St config_typeMap) typeName = Return fieldList
           /\ processItem (new config_typeMap) fuel item typeName s
              = Some (Return (VObject newItem), s)
           /\ (forall k, In k (Object_keys (VObject newItem))
                         <-> In k fieldList))
  /\ (forall St (s : St),
         processItem (new contactTypeMap) 1
           (VObject [("firstName", VString "Ann"); ("extra", VNumber 1)])
           (VString "Contact") s
         = Some (Return (VObject [("firstName", VString "Ann")]), s)).
Proof.
  split; [|split; [|reflexivity]].
  - intros St this fuel item typeName fl s out s' Hi _ Hf Hp H.
    assert (exists cs s1,
               outcomes (fun f => processFieldValue_body this
                                    (processValue this fuel) (get item f)
                                    typeName f) fl s = Some (cs, s1))
      as [cs [s1 O]].
    { unfold processItem, processItem_body in H. rewrite Hi, Hf in H.
      unfold bind at 1 in H. unfold await in H. unfold bind in H.
      destruct (processItem_loop _ _ _ _ _ _ _ _) eqn:E; [|discriminate].
      eapply processItem_loop_outcomes; eassumption. }
    unfold processItem in H.
    rewrite (processItem_body_spec _ _ _ _ _ _ _ _ Hi Hf Hp O) in H.
    destruct (existsb is_throw cs) eqn:E; [discriminate|].
    injection H as <- <-.
    assert (forall k, In k (Object_keys (VObject (kept fl cs))) <-> In k fl)
      as K.
    { intros k. rewrite In_Object_keys, kept_all; [tauto| |exact E].
      eapply outcomes_length; eassumption. }
    eexists. split; [reflexivity|]. split; [exact K|].
    intros k _ Hk. now rewrite K.
  - intros St tm fuel item typeName s C.
    destruct (processItem_conforming (new tm) s _ _ _
                (processValue_conforming tm fuel s) item typeName C)
      as [ni [fl [Hf [_ [E [K _]]]]]].
    exists ni, fl. auto.
Qed.

(** C8 at a field named [__proto__].  The type map is parsed from JSON
    and declares the fields [__proto__] and [a], both of the primitive
    type; the hooks are the identity.  On the item parsed from
    [{"__proto__": "p", "a": "x"}], which owns both fields,
    [processItem] returns [{a: 'x'}]: the assignment
    [newItem['__proto__'] = 'p'] creates no key, so a declared field is
    missing from the output. *)
Theorem processItem_drops_the_proto_field :
  getFieldList (@new unit protoFieldTypeMap) (VString "P")
  = Return ["__proto__"; "a"]
  /\ processItem (@new unit protoFieldTypeMap) 1
       (VObject [("__proto__", VString "p"); ("a", VString "x")])
       (VString "P") tt
     = Some (Return (VObject [("a", VString "x")]), tt)
  /\ ~ In "__proto__" (Object_keys (VObject [("a", VString "x")])).
Proof.
  split; [reflexivity|]. split; [reflexivity|].
  simpl. intros [H | []]. discriminate H.
Qed.

(** ** The theorems at concrete inputs *)

Lemma processItem_raises_failed_fields_witness :
  List.length [@Throw jsval (Thrown (VNumber 0))] = List.length ["firstName"]
  /\ forall F : list string,
      (forall f, In f F <->
                 exists e, outcome ["firstName"]
                             [@Throw jsval (Thrown (VNumber 0))] f (Throw e)) ->
      (F <> [] ->
       exists errorFields,
         processItem (strings_only contactTypeMap) 1
           (VObject [("firstName", VNumber 0)]) (VString "Contact") tt
         = Some (Throw (ITEM_ERROR errorFields), tt)
         /\ (forall f, In f (map fst errorFields) <-> In f F)
         /\ (forall f e, In (f, e) errorFields
                         <-> outcome ["firstName"]
                               [@Throw jsval (Thrown (VNumber 0))] f
                               (Throw e)))
      /\ (F = [] ->
          exists newItem,
            processItem (strings_only contactTypeMap) 1
              (VObject [("firstName", VNumber 0)]) (VString "Contact") tt
            = Some (Return (VObject newItem), tt)
            /\ forall f, In f ["firstName"] ->
                 In f (Object_keys (VObject newItem))
                 /\ outcome ["firstName"]
                      [@Throw jsval (Thrown (VNumber 0))] f
                      (Return (get (VObject newItem) f))).
Proof.
  apply (processItem_raises_failed_fields (strings_only contactTypeMap) 1
           (VObject [("firstName", VNumber 0)]) (VString "Contact")
           ["firstName"] tt [Throw (Thrown (VNumber 0))] tt).
  - reflexivity.
  - reflexivity.
  - reflexivity.
  - simpl. intros [H | []]. discriminate H.
  - intros f [<- | []]. reflexivity.
  - reflexivity.
Defined.


Lemma processItem_identity_on_conforming_witness :
  exists newItem,
    processItem (new contactTypeMap) 1
      (VObject [("extra", VNumber 1); ("firstName", VString "Ann")])
      (VString "Contact") tt
    = Some (Return (VObject newItem), tt)
    /\ deepEqual (VObject newItem)
         (restrictItem (@new unit contactTypeMap) 1
            (VObject [("extra", VNumber 1); ("firstName", VString "Ann")])
            (VString "Contact")).
Proof.
  apply (proj1 processItem_identity_on_conforming unit contactTypeMap 1
           (VObject [("extra", VNumber 1); ("firstName", VString "Ann")])
           (VString "Contact") tt).
  reflexivity.
Defined.

Lemma processValue_dispatch_witness :
  processValue (recording bothFlagsTypeMap) 1 (VString "x") (VString "Both") []
  = Some (Return (VString "x"),
          [] ++ [PrimitiveCall (VString "x") (VString "Both")]).
Proof.
  apply (proj2 processValue_dispatch bothFlagsTypeMap 0 (VString "x")
           (VString "Both")
           (VObject [("primitive", VBoolean true); ("remote", VBoolean true)])
           []).
  - reflexivity.
  - reflexivity.
  - reflexivity.
Defined.

Lemma absent_type_is_reported_witness :
  getTypeDefinition (@new unit contactTypeMap) (VString "Missing")
  = Throw NON_EXISTENT_TYPE
  /\ forall fuel value s,
      processValue (@new unit contactTypeMap) (S fuel) value
        (VString "Missing") s
      = Some (Throw NON_EXISTENT_TYPE, s).
Proof.
  assert (absentType (@new unit contactTypeMap) (VString "Missing")) as A.
  { unfold absentType. simpl. split; [reflexivity|]. split; [|reflexivity].
    intros [H | [H | []]]; discriminate H. }
  pose proof (absent_type_is_reported (@new unit contactTypeMap)
                (VString "Missing") A) as H.
  split; [apply H | apply H].
Defined.


Lemma absent_and_misshapen_inputs_witness :
  (processValueList (@new unit contactTypeMap) 0 VNull (VString "Contact") tt
   = Some (Return VNull, tt)
   /\ processItem (@new unit contactTypeMap) 0 VNull (VString "Contact") tt
      = Some (Return VNull, tt))
  /\ processValueList (@new unit contactTypeMap) 0 (VNumber 1)
       (VString "Contact") tt
     = Some (Throw INVALID_VALUE_LIST, tt)
  /\ processItem (@new unit contactTypeMap) 0 (VString "Ann")
       (VString "Contact") tt
     = Some (Throw INVALID_ITEM, tt).
Proof.
  split; [|split].
  - apply (proj1 (absent_and_misshapen_inputs (@new unit contactTypeMap) 0
                    VNull (VString "Contact") tt)).
    reflexivity.
  - apply (proj1 (proj2 (absent_and_misshapen_inputs
                           (@new unit contactTypeMap) 0 (VNumber 1)
                           (VString "Contact") tt))); reflexivity.
  - apply (proj2 (proj2 (absent_and_misshapen_inputs
                           (@new unit contactTypeMap) 0 (VString "Ann")
                           (VString "Contact") tt))); reflexivity.
Defined.

Lemma processItem_output_has_declared_keys_witness :
  exists newItem,
    VObject [("firstName", VString "Ann")] = VObject newItem
    /\ (forall k, In k (Object_keys (VObject [("firstName", VString "Ann")]))
                  <-> In k ["firstName"])
    /\ (forall k,
           In k (Object_keys
                   (VObject [("firstName", VString "Ann");
                             ("extra", VNumber 1)])) ->
           ~ In k ["firstName"] ->
           ~ In k (Object_keys (VObject [("firstName", VString "Ann")]))).
Proof.
  apply (proj1 processItem_output_has_declared_keys unit
           (new contactTypeMap) 1
           (VObject [("firstName", VString "Ann"); ("extra", VNumber 1)])
           (VString "Contact") ["firstName"] tt
           (VObject [("firstName", VString "Ann")]) tt).
  - reflexivity.
  - reflexivity.
  - reflexivity.
  - simpl. intros [H | []]. discriminate H.
  - reflexivity.
Defined.

Lemma empty_fields_map_is_not_missing_witness :
  getFieldList (@new unit emptyFieldsTypeMap) (VString "Empty") = Return []
  /\ forall fuel item s,
      instanceofObject item = true ->
      processItem (@new unit emptyFieldsTypeMap) fuel item (VString "Empty") s
      = Some (Return (VObject []), s).
Proof.
  apply (proj1 (empty_fields_map_is_not_missing (@new unit emptyFieldsTypeMap)
                  (VString "Empty") (VObject [("fields", VObject [])])
                  eq_refl)).
  - reflexivity.
  - reflexivity.
Defined.

(** * Further properties of the class *)

(** ** The registry accessors *)

Lemma getTypeDefinition_error {St} (this : AbstractTypeProcessor St)
  (typeName : jsval) (e : error) :
  getTypeDefinition this typeName = Throw e -> e = NON_EXISTENT_TYPE.
Proof.
  unfold getTypeDefinition.
  destruct (instanceofObject (typeMap this));
    [destruct (instanceofObject _)|]; congruence.
Qed.

Lemma getFieldDescriptor_error_kind {St} (this : AbstractTypeProcessor St)
  (typeName : jsval) (fieldName : string) (e : error) :
  getFieldDescriptor this typeName fieldName = Throw e ->
  e = NON_EXISTENT_TYPE \/ e = NON_EXISTENT_FIELD.
Proof.
  unfold getFieldDescriptor, cbind.
  destruct (getTypeDefinition this typeName) as [td|e'] eqn:G.
  - destruct (instanceofObject (get td "fields"));
      [destruct (instanceofObject _)|]; intros [= <-]; auto.
  - intros [= <-]. left. now apply getTypeDefinition_error in G.
Qed.

(** X1.  For a plain type name and a type that has a field list, and
    for a field name that is read from [fields] through its own
    properties: if [getFieldDescriptor] returns a descriptor the name is
    in the list of [getFieldList], and for a name outside that list
    [getFieldDescriptor] throws NON_EXISTENT_FIELD. *)
Theorem getFieldDescriptor_within_field_list {St}
  (this : AbstractTypeProcessor St) (typeName typeDefinition : jsval)
  (fieldList : list string) (fieldName : string) :
  plain_name typeName = true ->
  getTypeDefinition this typeName = Return typeDefinition ->
  getFieldList this typeName = Return fieldList ->
  reads_own (get typeDefinition "fields") fieldName = true ->
  (forall fieldDescriptor,
      getFieldDescriptor this typeName fieldName = Return fieldDescriptor ->
      In fieldName fieldList)
  /\ (~ In fieldName fieldList ->
      getFieldDescriptor this typeName fieldName
      = Throw NON_EXISTENT_FIELD).
Proof.
  intros _ G. unfold getFieldList, getFieldDescriptor, cbind. rewrite G.
  destruct (instanceofObject (get typeDefinition "fields")); [|discriminate].
  intros [= <-] _. split.
  - intros fd H.
    destruct (in_dec string_dec fieldName
                (Object_keys (get typeDefinition "fields")))
      as [I | N]; [exact I|].
    rewrite (get_absent _ _ N) in H. discriminate.
  - intros N. now rewrite (get_absent _ _ N).
Qed.

(** X2.  [getFieldDescriptor] throws NON_EXISTENT_TYPE exactly when the
    type is not declared and NON_EXISTENT_FIELD otherwise, never anything
    else: for a declared type with no object under [fields] it throws
    NON_EXISTENT_FIELD for every name, where [getFieldList] throws
    MISSING_FIELDS_FOR_TYPE. *)
Theorem getFieldDescriptor_errors {St} (this : AbstractTypeProcessor St)
  (typeName : jsval) (fieldName : string) :
  (forall e,
      getFieldDescriptor this typeName fieldName = Throw e ->
      (e = NON_EXISTENT_TYPE
       /\ getTypeDefinition this typeName = Throw NON_EXISTENT_TYPE)
      \/ (e = NON_EXISTENT_FIELD
          /\ exists typeDefinition,
              getTypeDefinition this typeName = Return typeDefinition))
  /\ (forall typeDefinition,
         getTypeDefinition this typeName = Return typeDefinition ->
         instanceofObject (get typeDefinition "fields") = false ->
         getFieldDescriptor this typeName fieldName = Throw NON_EXISTENT_FIELD
         /\ getFieldList this typeName = Throw MISSING_FIELDS_FOR_TYPE).
Proof.
  unfold getFieldDescriptor, getFieldList, cbind. split.
  - intros e.
    destruct (getTypeDefinition this typeName) as [td|e'] eqn:G.
    + intros H. right. split; [|eauto].
      destruct (instanceofObject (get td "fields"));
        [destruct (instanceofObject _)|]; congruence.
    + intros [= <-]. left.
      pose proof (getTypeDefinition_error _ _ _ G). now subst.
  - intros td -> ->. split; reflexivity.
Qed.

(** X3.  For a plain type name and a declared type, [getTypeFeature]
    reads the feature from the [features] record of the type
    definition: a feature that is set is returned; a feature that is not
    set, or any feature when the type has no [features], reads as
    [undefined] when its name is that of no inherited member; the call
    fails only when [features] is [null]. *)
Theorem getTypeFeature_lookup {St} (this : AbstractTypeProcessor St)
  (typeName typeDefinition : jsval) (featureName : string) :
  plain_name typeName = true ->
  getTypeDefinition this typeName = Return typeDefinition ->
  (forall o v,
      get typeDefinition "features" = VObject o ->
      assoc_get String.eqb featureName o = Some v ->
      getTypeFeature this typeName featureName = Return v)
  /\ (reads_own (features_of typeDefinition) featureName = true ->
      (get typeDefinition "features" = VUndefined ->
       getTypeFeature this typeName featureName = Return VUndefined)
      /\ (forall o,
             get typeDefinition "features" = VObject o ->
             ~ In featureName (map fst o) ->
             getTypeFeature this typeName featureName = Return VUndefined))
  /\ (forall e,
         getTypeFeature this typeName featureName = Throw e ->
         e = NATIVE_TYPE_ERROR /\ get typeDefinition "features" = VNull)
  /\ (get typeDefinition "features" = VNull ->
      getTypeFeature this typeName featureName = Throw NATIVE_TYPE_ERROR).
Proof.
  intros _ G. unfold getTypeFeature, cbind, features_of. rewrite G.
  split; [|split; [|split]].
  - intros o v -> H. simpl. now rewrite H.
  - intros _. split.
    + intros ->. reflexivity.
    + intros o -> N. simpl.
      apply (assoc_get_None String.eqb string_eqb_spec) in N. now rewrite N.
  - intros e H. destruct (get typeDefinition "features");
      simpl in H; try discriminate H. injection H as <-. auto.
  - intros ->. reflexivity.
Qed.

(** X4.  [getFieldFeature] fails as [getFieldDescriptor] does when the
    field has no descriptor; otherwise it reads the feature from the
    [features] record of the descriptor: a feature that is set is
    returned; a feature that is not set, or any feature when the
    descriptor has no [features], reads as [undefined] when its name is
    that of no inherited member. *)
Theorem getFieldFeature_lookup {St} (this : AbstractTypeProcessor St)
  (typeName : jsval) (fieldName featureName : string) :
  (forall e,
      getFieldDescriptor this typeName fieldName = Throw e ->
      getFieldFeature this typeName fieldName featureName = Throw e)
  /\ (forall fieldDescriptor,
         getFieldDescriptor this typeName fieldName = Return fieldDescriptor ->
         (forall o v,
             get fieldDescriptor "features" = VObject o ->
             assoc_get String.eqb featureName o = Some v ->
             getFieldFeature this typeName fieldName featureName = Return v)
         /\ (reads_own (features_of fieldDescriptor) featureName = true ->
             (get fieldDescriptor "features" = VUndefined ->
              getFieldFeature this typeName fieldName featureName
              = Return VUndefined)
             /\ (forall o,
                    get fieldDescriptor "features" = VObject o ->
                    ~ In featureName (map fst o) ->
                    getFieldFeature this typeName fieldName featureName
                    = Return VUndefined))).
Proof.
  unfold getFieldFeature, cbind, features_of. split.
  - intros e ->. reflexivity.
  - intros fd ->. split.
    + intros o v -> H. simpl. now rewrite H.
    + intros _. split.
      * intros ->. reflexivity.
      * intros o -> N. simpl.
        apply (assoc_get_None String.eqb string_eqb_spec) in N.
        now rewrite N.
Qed.

(** ** What the three traversal methods can complete with *)

Lemma getFieldList_error {St} (this : AbstractTypeProcessor St)
  (typeName : jsval) (e : error) :
  getFieldList this typeName = Throw e ->
  (e = NON_EXISTENT_TYPE
   /\ getTypeDefinition this typeName = Throw NON_EXISTENT_TYPE)
  \/ (e = MISSING_FIELDS_FOR_TYPE
      /\ exists typeDefinition,
          getTypeDefinition this typeName = Return typeDefinition
          /\ instanceofObject (get typeDefinition "fields") = false).
Proof.
  unfold getFieldList, cbind.
  destruct (getTypeDefinition this typeName) as [td|e'] eqn:G.
  - destruct (instanceofObject (get td "fields")) eqn:F; [discriminate|].
    intros [= <-]. right. eauto.
  - intros [= <-]. left.
    pose proof (getTypeDefinition_error _ _ _ G). now subst.
Qed.

Lemma processValueList_loop_outcomes {St}
  (pv : jsval -> jsval -> M St jsval) (typeName : jsval) (l : list jsval) :
  forall i newList errorIndices s r,
    processValueList_loop pv l typeName i newList errorIndices s = Some r ->
    exists cs s', outcomes (fun v => pv v typeName) l s = Some (cs, s').
Proof.
  induction l as [|a l IH]; simpl; intros i nl ei s r H; [eauto|].
  unfold bind at 1 in H. unfold try in H.
  destruct (pv a typeName s) as [[c s1]|]; [|discriminate].
  destruct c; apply IH in H as [cs [s2 E]]; rewrite E; eauto.
Qed.

Lemma processValueList_body_inv {St} (pv : jsval -> jsval -> M St jsval)
  (typeName : jsval) (l : list jsval) (s : St) c s' :
  processValueList_body pv (VArray l) typeName s = Some (c, s') ->
  exists cs,
    outcomes (fun v => pv v typeName) l s = Some (cs, s')
    /\ c = if existsb is_throw cs
           then Throw (VALUE_LIST_ERROR (thrown (seq 0 (List.length l)) cs))
           else Return (VArray (returned cs)).
Proof.
  intros H.
  assert (exists cs s1, outcomes (fun v => pv v typeName) l s = Some (cs, s1))
    as [cs [s1 O]].
  { unfold processValueList_body, bind in H.
    destruct (processValueList_loop _ _ _ _ _ _ _) eqn:E; [|discriminate].
    eapply processValueList_loop_outcomes; eassumption. }
  rewrite (processValueList_body_spec _ _ _ _ _ _ O) in H.
  injection H as <- <-. eauto.
Qed.

Lemma processItem_body_inv_run {St} (this : AbstractTypeProcessor St)
  (pv : jsval -> jsval -> M St jsval) (item typeName : jsval)
  (fieldList : list string) (s : St) c s' :
  instanceofObject item = true ->
  getFieldList this typeName = Return fieldList ->
  processItem_body this pv item typeName s = Some (c, s') ->
  exists cs,
    outcomes (fun f => processFieldValue_body this pv (get item f) typeName f)
      fieldList s = Some (cs, s')
    /\ c = if truthy_length (map fst (settable (thrown fieldList cs)))
           then Throw (ITEM_ERROR (settable (thrown fieldList cs)))
           else Return (VObject (settable (kept fieldList cs))).
Proof.
  intros Hi Hf H.
  assert (exists cs s1,
             outcomes (fun f => processFieldValue_body this pv (get item f)
                                  typeName f) fieldList s = Some (cs, s1))
    as [cs [s1 O]].
  { unfold processItem_body in H. rewrite Hi, Hf in H.
    unfold bind at 1 in H. unfold await in H. unfold bind in H.
    destruct (processItem_loop _ _ _ _ _ _ _ _) eqn:E; [|discriminate].
    eapply processItem_loop_outcomes; eassumption. }
  rewrite (processItem_body_run _ _ _ _ _ _ _ _ Hi Hf O) in H.
  injection H as <- <-. eauto.
Qed.

Lemma processItem_body_inv {St} (this : AbstractTypeProcessor St)
  (pv : jsval -> jsval -> M St jsval) (item typeName : jsval)
  (fieldList : list string) (s : St) c s' :
  instanceofObject item = true ->
  getFieldList this typeName = Return fieldList ->
  ~ In "__proto__" fieldList ->
  processItem_body this pv item typeName s = Some (c, s') ->
  exists cs,
    outcomes (fun f => processFieldValue_body this pv (get item f) typeName f)
      fieldList s = Some (cs, s')
    /\ c = if existsb is_throw cs
           then Throw (ITEM_ERROR (thrown fieldList cs))
           else Return (VObject (kept fieldList cs)).
Proof.
  intros Hi Hf Hp H.
  destruct (processItem_body_inv_run _ _ _ _ _ _ _ _ Hi Hf H) as [cs [O _]].
  rewrite (processItem_body_spec _ _ _ _ _ _ _ _ Hi Hf Hp O) in H.
  injection H as <-. eauto.
Qed.

Lemma thrown_nonempty {K A} (ks : list K) (cs : list (completion A)) :
  List.length cs = List.length ks -> existsb is_throw cs = true ->
  thrown ks cs <> [].
Proof.
  intros L E H. pose proof (thrown_nil ks cs L) as T.
  rewrite H, E in T. discriminate T.
Qed.

Lemma returned_length {A} (cs : list (completion A)) :
  existsb is_throw cs = false -> List.length (returned cs) = List.length cs.
Proof.
  intros E. rewrite <- (returned_all cs E) at 2. now rewrite length_map.
Qed.

(** X5.  Whenever [processValueList] completes, under any hooks: what it
    returns is either the absent input itself or an array as long as the
    input array; what it throws is either INVALID_VALUE_LIST (the input
    exists and is not an array; no hook ran) or VALUE_LIST_ERROR with a
    table that is not empty and whose keys are indices of the input.
    An error of an element never leaves it unwrapped. *)
Theorem processValueList_completions {St} (this : AbstractTypeProcessor St)
  (fuel : nat) (valueList typeName : jsval) (s : St) c s' :
  processValueList this fuel valueList typeName s = Some (c, s') ->
  match c with
  | Return out =>
      (valueExists valueList = false /\ out = valueList /\ s' = s)
      \/ (exists elements newList,
             valueList = VArray elements /\ out = VArray newList
             /\ List.length newList = List.length elements)
  | Throw e =>
      (e = INVALID_VALUE_LIST /\ valueExists valueList = true
       /\ instanceofArray valueList = false /\ s' = s)
      \/ (exists elements errorIndices,
             valueList = VArray elements
             /\ e = VALUE_LIST_ERROR errorIndices
             /\ errorIndices <> []
             /\ forall i, In i (map fst errorIndices) ->
                          i < List.length elements)
  end.
Proof.
  unfold processValueList. intros H.
  destruct valueList as [| | | | |l|];
    try (injection H as <- <-; simpl; auto 6).
  apply processValueList_body_inv in H as [cs [O ->]].
  pose proof (outcomes_length _ _ _ _ _ O) as L.
  destruct (existsb is_throw cs) eqn:E.
  - right. exists l, (thrown (seq 0 (List.length l)) cs).
    split; [reflexivity|]. split; [reflexivity|]. split.
    + apply thrown_nonempty; [now rewrite length_seq | exact E].
    + intros i Hi. apply thrown_keys_incl, in_seq in Hi. lia.
  - right. exists l, (returned cs).
    split; [reflexivity|]. split; [reflexivity|].
    now rewrite returned_length.
Qed.

(** X6.  Whenever [processItem] completes, under any hooks: what it
    returns is either the absent input itself or a record; what it
    throws is INVALID_ITEM (the input exists and is not an object),
    NON_EXISTENT_TYPE (the type is not declared), MISSING_FIELDS_FOR_TYPE
    (the type has no object under [fields]), in these three cases with
    no hook run, or ITEM_ERROR with a table that is not empty and whose
    keys are declared fields.  An error of a field never leaves it
    unwrapped. *)
Theorem processItem_completions {St} (this : AbstractTypeProcessor St)
  (fuel : nat) (item typeName : jsval) (s : St) c s' :
  processItem this fuel item typeName s = Some (c, s') ->
  match c with
  | Return out =>
      (valueExists item = false /\ out = item /\ s' = s)
      \/ (instanceofObject item = true /\ exists newItem, out = VObject newItem)
  | Throw e =>
      (e = INVALID_ITEM /\ valueExists item = true
       /\ instanceofObject item = false /\ s' = s)
      \/ (e = NON_EXISTENT_TYPE /\ instanceofObject item = true /\ s' = s
          /\ getTypeDefinition this typeName = Throw NON_EXISTENT_TYPE)
      \/ (e = MISSING_FIELDS_FOR_TYPE /\ instanceofObject item = true
          /\ s' = s
          /\ exists typeDefinition,
              getTypeDefinition this typeName = Return typeDefinition
              /\ instanceofObject (get typeDefinition "fields") = false)
      \/ (exists errorFields fieldList,
             e = ITEM_ERROR errorFields
             /\ errorFields <> []
             /\ instanceofObject item = true
             /\ getFieldList this typeName = Return fieldList
             /\ forall f, In f (map fst errorFields) -> In f fieldList)
  end.
Proof.
  unfold processItem. intros H.
  destruct (instanceofObject item) eqn:Hi.
  - destruct (getFieldList this typeName) as [fl|e] eqn:Hf.
    + apply (processItem_body_inv_run _ _ _ _ _ _ _ _ Hi Hf) in H
        as [cs [O ->]].
      destruct (truthy_length _) eqn:E.
      * do 3 right. exists (settable (thrown fl cs)), fl.
        split; [reflexivity|]. split.
        { intros Q. rewrite Q in E. discriminate E. }
        split; [reflexivity|]. split; [reflexivity|].
        intros f I. eapply thrown_keys_incl, settable_incl, I.
      * right. split; [reflexivity | eauto].
    + unfold processItem_body, bind, await in H. rewrite Hi, Hf in H.
      injection H as <- <-.
      destruct (getFieldList_error _ _ _ Hf) as [[-> G] | [-> G]]; auto 8.
  - unfold processItem_body in H. rewrite Hi in H.
    destruct (valueExists item) eqn:V; simpl in H; injection H as <- <-;
      auto 6.
Qed.

(** X7.  [processFieldValue] looks the field up first: when the field
    has no descriptor it throws what [getFieldDescriptor] throws, with
    no hook run, whatever the value.  Otherwise the value is processed
    under the [type] of the descriptor: when [multiple] is set, as a list
    ([processValueList]: an absent value is returned as it is and a value
    that is not an array is INVALID_VALUE_LIST); when it is not set, as
    one value ([processValue]). *)
Theorem processFieldValue_dispatch {St} (this : AbstractTypeProcessor St)
  (fuel : nat) (value typeName : jsval) (fieldName : string) (s : St) :
  (forall e,
      getFieldDescriptor this typeName fieldName = Throw e ->
      processFieldValue this fuel value typeName fieldName s
      = Some (Throw e, s))
  /\ (forall fieldDescriptor,
         getFieldDescriptor this typeName fieldName = Return fieldDescriptor ->
         (truthy (get fieldDescriptor "multiple") = true ->
          processFieldValue this fuel value typeName fieldName s
          = processValueList this fuel value (get fieldDescriptor "type") s
          /\ (valueExists value = false ->
              processFieldValue this fuel value typeName fieldName s
              = Some (Return value, s))
          /\ (valueExists value = true -> instanceofArray value = false ->
              processFieldValue this fuel value typeName fieldName s
              = Some (Throw INVALID_VALUE_LIST, s)))
         /\ (truthy (get fieldDescriptor "multiple") = false ->
             processFieldValue this fuel value typeName fieldName s
             = processValue this fuel value (get fieldDescriptor "type") s)).
Proof.
  unfold processFieldValue, processFieldValue_body, bind, await. split.
  - intros e ->. reflexivity.
  - intros fd ->. split.
    + intros ->. split; [reflexivity|].
      destruct value; simpl; split; intros; try discriminate; reflexivity.
    + intros ->. reflexivity.
Qed.

(** ** The order in which the hooks are called *)

Lemma outcomes_logged {A B E} (f : A -> M (list E) B) (g : A -> B)
  (h : A -> E) (l : list A) :
  (forall a log, In a l -> f a log = Some (Return (g a), log ++ [h a])) ->
  forall log,
    outcomes f l log = Some (map (fun a => Return (g a)) l, log ++ map h l).
Proof.
  induction l as [|a l IH]; simpl; intros H log.
  - now rewrite app_nil_r.
  - rewrite (H a log (or_introl eq_refl)).
    rewrite (IH (fun b lg Hb => H b lg (or_intror Hb))).
    now rewrite <- app_assoc.
Qed.

(** X8.  On a list whose type is a leaf type, [processValueList] calls
    the hook of that type once per element, in index order and under the
    given type name: the primitive hook when [primitive] is set, the
    remote hook when only [remote] is set.  With hooks that return
    their argument the list comes back as it was. *)
Theorem processValueList_calls_in_index_order (config_typeMap : jsval)
  (fuel : nat) (elements : list jsval) (typeName typeDefinition : jsval)
  (log : list call) :
  getTypeDefinition (recording config_typeMap) typeName
  = Return typeDefinition ->
  (truthy (get typeDefinition "primitive") = true ->
   processValueList (recording config_typeMap) (S fuel) (VArray elements)
     typeName log
   = Some (Return (VArray elements),
           log ++ map (fun v => PrimitiveCall v typeName) elements))
  /\ (truthy (get typeDefinition "primitive") = false ->
      truthy (get typeDefinition "remote") = true ->
      processValueList (recording config_typeMap) (S fuel) (VArray elements)
        typeName log
      = Some (Return (VArray elements),
              log ++ map (fun v => RemoteCall v typeName) elements)).
Proof.
  intros G. unfold processValueList. split.
  - intros P.
    rewrite (processValueList_body_spec _ _ _ _
               (map (fun v => Return v) elements)
               (log ++ map (fun v => PrimitiveCall v typeName) elements)).
    + now rewrite (no_throw_map_Return (fun v => v)),
        (returned_map_Return (fun v => v)), map_id.
    + apply (outcomes_logged _ (fun v => v)). intros a lg _.
      simpl. unfold bind, await. now rewrite G, P.
  - intros P R.
    rewrite (processValueList_body_spec _ _ _ _
               (map (fun v => Return v) elements)
               (log ++ map (fun v => RemoteCall v typeName) elements)).
    + now rewrite (no_throw_map_Return (fun v => v)),
        (returned_map_Return (fun v => v)), map_id.
    + apply (outcomes_logged _ (fun v => v)). intros a lg _.
      simpl. unfold bind, await. now rewrite G, P, R.
Qed.

(** X9.  On an object read through its own properties and a type with
    plain type names, no field named [__proto__] and all of whose fields
    are single values of primitive types, [processItem] calls the
    primitive hook once per declared field, in the order of the field
    list, with the value the item has under that field ([undefined] when
    it has none) and the type name of the field; properties that the
    type does not declare reach no hook.  With hooks that return their
    argument the result binds every declared field to that value. *)
Theorem processItem_calls_in_field_order (config_typeMap : jsval)
  (fuel : nat) (item typeName : jsval) (fieldList : list string)
  (log : list call) :
  instanceofObject item = true ->
  plain_name typeName = true ->
  getFieldList (recording config_typeMap) typeName = Return fieldList ->
  ~ In "__proto__" fieldList ->
  (forall f, In f fieldList -> reads_own item f = true) ->
  (forall f, In f fieldList ->
     exists fieldDescriptor typeDefinition,
       getFieldDescriptor (recording config_typeMap) typeName f
       = Return fieldDescriptor
       /\ truthy (get fieldDescriptor "multiple") = false
       /\ plain_name (get fieldDescriptor "type") = true
       /\ getTypeDefinition (recording config_typeMap)
            (get fieldDescriptor "type") = Return typeDefinition
       /\ truthy (get typeDefinition "primitive") = true) ->
  processItem (recording config_typeMap) (S fuel) item typeName log
  = Some (Return (VObject (map (fun f => (f, get item f)) fieldList)),
          log ++ map (fun f =>
                        PrimitiveCall (get item f)
                          (fieldTypeOf (recording config_typeMap) typeName f))
                  fieldList).
Proof.
  intros Hi _ Hf Hp _ H. unfold processItem.
  rewrite (processItem_body_spec _ _ _ _ _ _
             (map (fun f => Return (get item f)) fieldList)
             (log ++ map (fun f =>
                            PrimitiveCall (get item f)
                              (fieldTypeOf (recording config_typeMap)
                                 typeName f)) fieldList) Hi Hf Hp).
  - now rewrite no_throw_map_Return, kept_map_Return.
  - apply (outcomes_logged _ (fun f => get item f)). intros f lg Hin.
    destruct (H f Hin) as [fd [td [D [Mu [_ [G P]]]]]].
    unfold processFieldValue_body, fieldTypeOf, bind at 1, await.
    rewrite D, Mu. simpl. unfold bind, await. now rewrite G, P.
Qed.

(** ** What the item processor reads *)

Lemma processItem_loop_ext {St} (this : AbstractTypeProcessor St)
  (pv : jsval -> jsval -> M St jsval) (item1 item2 typeName : jsval)
  (fieldList : list string) :
  (forall f, In f fieldList -> get item1 f = get item2 f) ->
  forall newItem errorFields s,
    processItem_loop this pv item1 typeName fieldList newItem errorFields s
    = processItem_loop this pv item2 typeName fieldList newItem errorFields s.
Proof.
  induction fieldList as [|f fl IH]; simpl; intros H ni ef s; [reflexivity|].
  rewrite (H f (or_introl eq_refl)). unfold bind, try.
  destruct (processFieldValue_body this pv (get item2 f) typeName f s)
    as [[[x|e] s1]|]; [| |reflexivity];
    apply IH; intros g Hg; apply H; now right.
Qed.

(** X10.  [processItem] reads an object through its declared fields
    only: for a plain type name, two objects that are read through
    their own properties and agree on every declared field complete in
    the same way, with the same calls of the hooks, whatever else they
    hold. *)
Theorem processItem_reads_declared_fields_only {St}
  (this : AbstractTypeProcessor St) (fuel : nat)
  (item1 item2 typeName : jsval) (fieldList : list string) (s : St) :
  instanceofObject item1 = true ->
  instanceofObject item2 = true ->
  plain_name typeName = true ->
  getFieldList this typeName = Return fieldList ->
  (forall f, In f fieldList ->
             reads_own item1 f = true /\ reads_own item2 f = true) ->
  (forall f, In f fieldList -> get item1 f = get item2 f) ->
  processItem this fuel item1 typeName s
  = processItem this fuel item2 typeName s.
Proof.
  intros H1 H2 _ Hf _ H. unfold processItem, processItem_body.
  rewrite H1, H2, Hf. unfold bind, await.
  now rewrite (processItem_loop_ext this _ item1 item2 typeName fieldList H).
Qed.

(** ** Lists in pieces *)

Lemma outcomes_app {St A B} (f : A -> M St B) (l1 l2 : list A) :
  forall s cs1 s1 cs2 s2,
    outcomes f l1 s = Some (cs1, s1) ->
    outcomes f l2 s1 = Some (cs2, s2) ->
    outcomes f (l1 ++ l2) s = Some (cs1 ++ cs2, s2).
Proof.
  induction l1 as [|a l1 IH]; simpl; intros s cs1 s1 cs2 s2 H1 H2.
  - injection H1 as <- <-. exact H2.
  - destruct (f a s) as [[c t]|]; [|discriminate].
    destruct (outcomes f l1 t) as [[cs t']|] eqn:E; [|discriminate].
    injection H1 as <- <-. now rewrite (IH _ _ _ _ _ E H2).
Qed.

Lemma returned_app {A} (cs1 cs2 : list (completion A)) :
  returned (cs1 ++ cs2) = returned cs1 ++ returned cs2.
Proof.
  induction cs1 as [|[a|e] cs1 IH]; simpl; [reflexivity | now f_equal | exact IH].
Qed.

Lemma thrown_shift {A} (cs : list (completion A)) (n i len : nat) :
  thrown (seq (n + i) len) cs = shift_indices n (thrown (seq i len) cs).
Proof.
  revert i cs. induction len as [|len IH]; intros i [|[a|e] cs]; simpl;
    try reflexivity.
  - rewrite <- IH. now rewrite Nat.add_succ_r.
  - rewrite <- IH. now rewrite Nat.add_succ_r.
Qed.

Lemma thrown_from {A} (cs : list (completion A)) (n len : nat) :
  thrown (seq n len) cs = shift_indices n (thrown (seq 0 len) cs).
Proof. rewrite <- thrown_shift. now rewrite Nat.add_0_r. Qed.

Lemma thrown_app {K A} (ks1 ks2 : list K) (cs1 cs2 : list (completion A)) :
  List.length cs1 = List.length ks1 ->
  thrown (ks1 ++ ks2) (cs1 ++ cs2) = thrown ks1 cs1 ++ thrown ks2 cs2.
Proof.
  revert cs1. induction ks1 as [|k ks1 IH]; intros [|[a|e] cs1]; simpl;
    try discriminate; try reflexivity; intros [= L];
    [|f_equal]; now apply IH.
Qed.

(** X11.  Processing a list is processing its pieces one after the
    other.  If [processValueList] completes on [l1] and then, from the
    state it left, on [l2], it completes on [l1 ++ l2] in the same final
    state: with the two results appended when both return, and otherwise
    with VALUE_LIST_ERROR whose table is that of [l1] followed by that
    of [l2] with its indices moved up by the length of [l1]. *)
Theorem processValueList_app {St} (this : AbstractTypeProcessor St)
  (fuel : nat) (l1 l2 : list jsval) (typeName : jsval) (s s1 s2 : St)
  (c1 c2 : completion jsval) :
  processValueList this fuel (VArray l1) typeName s = Some (c1, s1) ->
  processValueList this fuel (VArray l2) typeName s1 = Some (c2, s2) ->
  exists c,
    processValueList this fuel (VArray (l1 ++ l2)) typeName s = Some (c, s2)
    /\ (forall r1 r2, c1 = Return (VArray r1) -> c2 = Return (VArray r2) ->
                      c = Return (VArray (r1 ++ r2)))
    /\ (forall e1 r2, c1 = Throw (VALUE_LIST_ERROR e1) ->
                      c2 = Return (VArray r2) ->
                      c = Throw (VALUE_LIST_ERROR e1))
    /\ (forall r1 e2, c1 = Return (VArray r1) ->
                      c2 = Throw (VALUE_LIST_ERROR e2) ->
                      c = Throw (VALUE_LIST_ERROR
                                   (shift_indices (List.length l1) e2)))
    /\ (forall e1 e2, c1 = Throw (VALUE_LIST_ERROR e1) ->
                      c2 = Throw (VALUE_LIST_ERROR e2) ->
                      c = Throw (VALUE_LIST_ERROR
                                   (e1 ++ shift_indices (List.length l1) e2))).
Proof.
  unfold processValueList. intros H1 H2.
  apply processValueList_body_inv in H1 as [cs1 [O1 ->]].
  apply processValueList_body_inv in H2 as [cs2 [O2 ->]].
  pose proof (outcomes_length _ _ _ _ _ O1) as L1.
  pose proof (outcomes_length _ _ _ _ _ O2) as L2.
  rewrite (processValueList_body_spec _ _ _ _ _ _ (outcomes_app _ _ _ _ _ _ _ _ O1 O2)).
  eexists. split; [reflexivity|].
  rewrite existsb_app, returned_app, length_app, seq_app, thrown_app
    by (now rewrite length_seq).
  simpl (0 + _). rewrite (thrown_from cs2 (List.length l1)).
  assert (forall (cs : list (completion jsval)) n,
             existsb is_throw cs = false ->
             List.length cs = n -> thrown (seq 0 n) cs = [])
    as T.
  { intros cs n E L. destruct (thrown (seq 0 n) cs) eqn:Q; [reflexivity|].
    pose proof (thrown_nil (seq 0 n) cs) as X.
    rewrite length_seq, Q, E in X. discriminate (X L). }
  destruct (existsb is_throw cs1) eqn:E1, (existsb is_throw cs2) eqn:E2;
    simpl; repeat split; intros; try discriminate;
    repeat match goal with
      | H : Return _ = Return _ |- _ => injection H as H; subst
      | H : Throw _ = Throw _ |- _ => injection H as H; subst
      end;
    rewrite ?(T cs1 _ E1 L1), ?(T cs2 _ E2 L2); simpl;
    rewrite ?app_nil_r; reflexivity.
Qed.

(** ** Processing twice with the base class *)

Lemma declares_no_proto_getFieldList {St} (this : AbstractTypeProcessor St) :
  declares_no_proto (typeMap this) = true ->
  forall T fieldList,
    getFieldList this T = Return fieldList -> ~ In "__proto__" fieldList.
Proof.
  intros D T fl. unfold getFieldList, getTypeDefinition, cbind.
  destruct (instanceofObject (typeMap this)); [|discriminate].
  destruct (instanceofObject (get (typeMap this) (toPropertyKey T))) eqn:I;
    [|discriminate].
  destruct (instanceofObject (get _ "fields")); [|discriminate].
  intros [= <-] P.
  assert (In (toPropertyKey T) (Object_keys (typeMap this))) as K.
  { destruct (in_dec string_dec (toPropertyKey T)
                (Object_keys (typeMap this))) as [K | N]; [exact K|].
    rewrite (get_absent _ _ N) in I. discriminate I. }
  unfold declares_no_proto in D. rewrite forallb_forall in D.
  specialize (D _ K). apply negb_true_iff in D.
  assert (existsb (String.eqb "__proto__")
            (Object_keys (get (get (typeMap this) (toPropertyKey T))
                            "fields")) = true) as X
      by (apply existsb_exists; exists "__proto__"; auto).
  congruence.
Qed.

Lemma outcomes_all_return {St A B} (f : A -> M St B) (s : St) (l : list A) :
  (forall a c s1, f a s = Some (c, s1) -> is_throw c = false -> s1 = s) ->
  forall cs s',
    outcomes f l s = Some (cs, s') ->
    existsb is_throw cs = false ->
    s' = s /\ Forall2 (fun a c => f a s = Some (c, s)) l cs.
Proof.
  intros P. induction l as [|a l IH]; simpl; intros cs s' H E.
  - injection H as <- <-. split; [reflexivity | constructor].
  - destruct (f a s) as [[c s1]|] eqn:Fa; [|discriminate].
    destruct (outcomes f l s1) as [[cs1 s2]|] eqn:O; [|discriminate].
    injection H as <- <-. simpl in E. apply orb_false_iff in E as [E1 E2].
    pose proof (P a c s1 Fa E1). subst s1.
    destruct (IH _ _ O E2) as [-> F]. split; [reflexivity|].
    constructor; assumption.
Qed.

Lemma kept_Forall2 {K A} (P : K -> completion A -> Prop) (ks : list K)
  (cs : list (completion A)) :
  Forall2 P ks cs ->
  forall k x, In (k, x) (kept ks cs) -> P k (Return x).
Proof.
  induction 1 as [|k0 c ks cs H F IH]; simpl; [tauto|].
  destruct c as [a|e]; [|exact IH].
  intros k x [[= <- <-] | I]; [exact H | now apply IH].
Qed.

Lemma returned_Forall2 {K A} (P : K -> completion A -> Prop) (ks : list K)
  (cs : list (completion A)) :
  Forall2 P ks cs ->
  forall x, In x (returned cs) -> exists k, P k (Return x).
Proof.
  induction 1 as [|k0 c ks cs H F IH]; simpl; [tauto|].
  destruct c as [a|e]; [|exact IH].
  intros x [<- | I]; [eauto | now apply IH].
Qed.

Lemma assoc_rebuild (l : list (string * jsval)) :
  NoDup (map fst l) ->
  map (fun k => (k, get (VObject l) k)) (map fst l) = l.
Proof.
  intros N. rewrite map_map.
  rewrite <- (map_id l) at 2. apply map_ext_in.
  intros [k x] I. simpl.
  now rewrite (assoc_get_NoDup String.eqb string_eqb_spec k x l N I).
Qed.

Section Twice.
Context {St : Type} (this : AbstractTypeProcessor St) (s : St).
Variable pv : jsval -> jsval -> M St jsval.
Hypothesis pv_twice :
  forall v T out s',
    pv v T s = Some (Return out, s') ->
    s' = s /\ pv out T s = Some (Return out, s).
Hypothesis no_proto_field :
  forall T fieldList,
    getFieldList this T = Return fieldList -> ~ In "__proto__" fieldList.

Lemma processValueList_body_twice (valueList typeName out : jsval) s' :
  processValueList_body pv valueList typeName s = Some (Return out, s') ->
  s' = s
  /\ processValueList_body pv out typeName s = Some (Return out, s).
Proof.
  destruct valueList as [| | | | |l|];
    try (simpl; intros [= <- <-]; split; reflexivity);
    try (simpl; discriminate).
  intros H. apply processValueList_body_inv in H as [cs [O H]].
  destruct (existsb is_throw cs) eqn:E; [discriminate|].
  injection H as ->.
  destruct (outcomes_all_return (fun v => pv v typeName) s l) with
    (cs := cs) (s' := s') as [-> F]; try assumption.
  { intros a [x|e] s1 Ha Hc; [|discriminate]. now apply pv_twice in Ha. }
  split; [reflexivity|].
  rewrite (processValueList_body_spec pv typeName (returned cs) s
             (map (fun x => Return x) (returned cs)) s).
  - now rewrite (no_throw_map_Return (fun x => x)),
      (returned_map_Return (fun x => x)), map_id.
  - apply (outcomes_pure _ (fun x => x)). intros x Hx.
    destruct (returned_Forall2 _ _ _ F x Hx) as [a Ha].
    now apply pv_twice in Ha.
Qed.

Lemma processFieldValue_body_twice (value typeName out : jsval)
  (fieldName : string) s' :
  processFieldValue_body this pv value typeName fieldName s
  = Some (Return out, s') ->
  s' = s
  /\ processFieldValue_body this pv out typeName fieldName s
     = Some (Return out, s).
Proof.
  unfold processFieldValue_body, bind, await.
  destruct (getFieldDescriptor this typeName fieldName) as [fd|];
    [|discriminate].
  destruct (truthy (get fd "multiple")).
  - apply processValueList_body_twice.
  - apply pv_twice.
Qed.

Lemma processItem_body_twice (item typeName out : jsval) s' :
  processItem_body this pv item typeName s = Some (Return out, s') ->
  s' = s
  /\ processItem_body this pv out typeName s = Some (Return out, s).
Proof.
  intros H. destruct (instanceofObject item) eqn:Hi.
  - destruct (getFieldList this typeName) as [fl|e] eqn:Hf.
    + pose proof (getFieldList_NoDup _ _ _ Hf) as N.
      pose proof (no_proto_field _ _ Hf) as Hp.
      apply (processItem_body_inv _ _ _ _ _ _ _ _ Hi Hf Hp) in H
        as [cs [O H]].
      destruct (existsb is_throw cs) eqn:E; [discriminate|].
      injection H as ->.
      pose proof (outcomes_length _ _ _ _ _ O) as L.
      destruct (outcomes_all_return
                  (fun f => processFieldValue_body this pv (get item f)
                              typeName f) s fl) with (cs := cs) (s' := s')
        as [-> F]; try assumption.
      { intros f [x|e] s1 Ha Hc; [|discriminate].
        now apply processFieldValue_body_twice in Ha. }
      split; [reflexivity|].
      pose proof (kept_all fl cs L E) as KA.
      set (newItem := kept fl cs) in *.
      assert (NoDup (map fst newItem)) as NK by (now rewrite KA).
      rewrite (processItem_body_spec this pv (VObject newItem) typeName fl s
                 (map (fun f => Return (get (VObject newItem) f)) fl) s
                 eq_refl Hf Hp).
      * rewrite no_throw_map_Return, kept_map_Return.
        rewrite <- KA at 1. now rewrite assoc_rebuild.
      * apply outcomes_pure. intros f Hin.
        rewrite <- KA in Hin. apply in_map_iff in Hin as [[g x] [Hg Hx]].
        simpl in Hg. subst g.
        pose proof (kept_Forall2 _ _ _ F f x Hx) as Hfx. simpl in Hfx.
        apply processFieldValue_body_twice in Hfx as [_ Hfx].
        assert (get (VObject newItem) f = x) as ->; [|exact Hfx].
        unfold get.
        now rewrite (assoc_get_NoDup String.eqb string_eqb_spec f x newItem
                       NK Hx).
    + unfold processItem_body, bind, await in H. rewrite Hi, Hf in H.
      discriminate.
  - unfold processItem_body in H. rewrite Hi in H.
    destruct item; try discriminate; simpl in H;
      injection H as <- <-; split; reflexivity.
Qed.
End Twice.

Lemma processValue_twice {St} (config_typeMap : jsval) (fuel : nat) (s : St) :
  (forall T fieldList,
      getFieldList (@new St config_typeMap) T = Return fieldList ->
      ~ In "__proto__" fieldList) ->
  forall value typeName out s',
    processValue (new config_typeMap) fuel value typeName s
    = Some (Return out, s') ->
    s' = s
    /\ processValue (new config_typeMap) fuel out typeName s
       = Some (Return out, s).
Proof.
  intros NP.
  induction fuel as [|n IH]; intros v T out s'; [discriminate|].
  simpl. unfold bind, await.
  destruct (getTypeDefinition (new config_typeMap) T) as [td|];
    [|discriminate].
  destruct (truthy (get td "primitive"));
    [intros [= <- <-]; split; reflexivity|].
  destruct (truthy (get td "remote"));
    [intros [= <- <-]; split; reflexivity|].
  apply processItem_body_twice; [exact IH | exact NP].
Qed.

(** X13.  The base class is idempotent on a schema with plain type
    names and no field named [__proto__]: whatever [processItem],
    [processValueList] or [processValue] returns with the identity hooks
    is returned unchanged when it is processed again under the same
    type. *)
Theorem base_class_idempotent {St} (config_typeMap : jsval) (fuel : nat)
  (input typeName out : jsval) (s s' : St) :
  declares_no_proto config_typeMap = true ->
  plain_field_types config_typeMap = true ->
  plain_name typeName = true ->
  (processItem (new config_typeMap) fuel input typeName s
   = Some (Return out, s') ->
   processItem (new config_typeMap) fuel out typeName s
   = Some (Return out, s))
  /\ (processValueList (new config_typeMap) fuel input typeName s
      = Some (Return out, s') ->
      processValueList (new config_typeMap) fuel out typeName s
      = Some (Return out, s))
  /\ (processValue (new config_typeMap) fuel input typeName s
      = Some (Return out, s') ->
      processValue (new config_typeMap) fuel out typeName s
      = Some (Return out, s)).
Proof.
  intros D _ _.
  pose proof (declares_no_proto_getFieldList (@new St config_typeMap) D)
    as NP.
  split; [|split]; intros H.
  - apply (processItem_body_twice (new config_typeMap) s _
             (processValue_twice config_typeMap fuel s NP) NP) in H.
    apply H.
  - apply (processValueList_body_twice s _
             (processValue_twice config_typeMap fuel s NP)) in H. apply H.
  - apply (processValue_twice _ _ _ NP) in H. apply H.
Qed.

(** ** A list of one element *)

(** X14.  [processValueList] on a list of one element is [processValue]
    on that element, wrapped: the result in a list of one element, the
    error in VALUE_LIST_ERROR under index 0; the final state is the
    same. *)
Theorem processValueList_singleton {St} (this : AbstractTypeProcessor St)
  (fuel : nat) (value typeName : jsval) (s s' : St) (c : completion jsval) :
  processValue this fuel value typeName s = Some (c, s') ->
  processValueList this fuel (VArray [value]) typeName s
  = Some (match c with
          | Return newValue => Return (VArray [newValue])
          | Throw e => Throw (VALUE_LIST_ERROR [(0, e)])
          end, s').
Proof.
  intros H. unfold processValueList.
  rewrite (processValueList_body_spec _ _ _ _ [c] s').
  - now destruct c.
  - simpl. now rewrite H.
Qed.

(** ** A field without a type *)

(** X16.  A field whose descriptor has no [type] is processed under the
    type name [undefined], which is looked up as the name ['undefined']:
    unless the type map declares a type of that name, processing a
    single value of the field throws NON_EXISTENT_TYPE, with no hook
    run, and processing a non-empty list of it throws VALUE_LIST_ERROR
    binding every index to NON_EXISTENT_TYPE. *)
Theorem processFieldValue_untyped_field {St}
  (this : AbstractTypeProcessor St) (fuel : nat) (value typeName : jsval)
  (fieldName : string) (fieldDescriptor : jsval) (s : St) :
  getFieldDescriptor this typeName fieldName = Return fieldDescriptor ->
  get fieldDescriptor "type" = VUndefined ->
  ~ In "undefined" (Object_keys (typeMap this)) ->
  (truthy (get fieldDescriptor "multiple") = false ->
   processFieldValue this (S fuel) value typeName fieldName s
   = Some (Throw NON_EXISTENT_TYPE, s))
  /\ (truthy (get fieldDescriptor "multiple") = true ->
      forall elements, value = VArray elements -> elements <> [] ->
      processFieldValue this (S fuel) value typeName fieldName s
      = Some (Throw (VALUE_LIST_ERROR
                       (map (fun i => (i, NON_EXISTENT_TYPE))
                          (seq 0 (List.length elements)))), s)).
Proof.
  intros D Ty A.
  assert (getTypeDefinition this VUndefined = Throw NON_EXISTENT_TYPE) as G.
  { unfold getTypeDefinition. simpl toPropertyKey.
    rewrite (get_absent _ _ A). now destruct (instanceofObject _). }
  assert (forall v t, processValue this (S fuel) v VUndefined t
                      = Some (Throw NON_EXISTENT_TYPE, t)) as PV.
  { intros. simpl. unfold bind, await. now rewrite G. }
  unfold processFieldValue, processFieldValue_body, bind, await.
  rewrite D, Ty. split.
  - intros ->. apply PV.
  - intros -> elements -> NE.
    rewrite (processValueList_body_spec _ _ _ _
               (map (fun _ => Throw NON_EXISTENT_TYPE) elements) s).
    + rewrite thrown_all. destruct elements; [congruence | reflexivity].
    + apply outcomes_all_throw. intros a. apply PV.
Qed.

(** ** The further properties at concrete inputs *)

Lemma getFieldDescriptor_within_field_list_witness :
  (forall fieldDescriptor,
      getFieldDescriptor (@new unit exampleTypeMap) (VString "TypeName")
        "fieldName3" = Return fieldDescriptor ->
      In "fieldName3" ["fieldName1"; "fieldName2"])
  /\ (~ In "fieldName3" ["fieldName1"; "fieldName2"] ->
      getFieldDescriptor (@new unit exampleTypeMap) (VString "TypeName")
        "fieldName3" = Throw NON_EXISTENT_FIELD).
Proof.
  apply (getFieldDescriptor_within_field_list (@new unit exampleTypeMap)
           (VString "TypeName") (get exampleTypeMap "TypeName")
           ["fieldName1"; "fieldName2"] "fieldName3").
  - reflexivity.
  - reflexivity.
  - reflexivity.
  - reflexivity.
Defined.

Lemma getFieldDescriptor_errors_witness :
  getFieldDescriptor (@new unit exampleTypeMap) (VString "PrimitiveType")
    "fieldName1" = Throw NON_EXISTENT_FIELD
  /\ getFieldList (@new unit exampleTypeMap) (VString "PrimitiveType")
     = Throw MISSING_FIELDS_FOR_TYPE.
Proof.
  apply (proj2 (getFieldDescriptor_errors (@new unit exampleTypeMap)
                  (VString "PrimitiveType") "fieldName1")
           (VObject [("name", VString "PrimitiveType");
                     ("label", VString "Primitive Type");
                     ("primitive", VBoolean true)])).
  - reflexivity.
  - reflexivity.
Defined.

Lemma getTypeFeature_lookup_witness :
  getTypeFeature (@new unit exampleTypeMap) (VString "TypeName") "feature2"
  = Return (VObject [])
  /\ getTypeFeature (@new unit exampleTypeMap) (VString "PrimitiveType")
       "feature2" = Return VUndefined.
Proof.
  split.
  - apply (proj1 (getTypeFeature_lookup (@new unit exampleTypeMap)
                    (VString "TypeName") (get exampleTypeMap "TypeName")
                    "feature2" eq_refl eq_refl)
             (match exampleFeatures with VObject o => o | _ => [] end)
             (VObject [])).
    + reflexivity.
    + reflexivity.
  - apply (proj1 (proj1 (proj2 (getTypeFeature_lookup
                                  (@new unit exampleTypeMap)
                                  (VString "PrimitiveType")
                                  (get exampleTypeMap "PrimitiveType")
                                  "feature2" eq_refl eq_refl))
                    eq_refl)).
    reflexivity.
Defined.

Lemma getFieldFeature_lookup_witness :
  getFieldFeature (@new unit exampleTypeMap) (VString "TypeName")
    "fieldName2" "feature1" = Return VUndefined
  /\ getFieldFeature (@new unit exampleTypeMap) (VString "TypeName")
       "fieldName3" "feature1" = Throw NON_EXISTENT_FIELD.
Proof.
  split.
  - apply (proj1 (proj2 (proj2 (getFieldFeature_lookup
                                  (@new unit exampleTypeMap)
                                  (VString "TypeName") "fieldName2"
                                  "feature1")
                           (VObject []) eq_refl) eq_refl)).
    reflexivity.
  - apply (proj1 (getFieldFeature_lookup (@new unit exampleTypeMap)
                    (VString "TypeName") "fieldName3" "feature1")).
    reflexivity.
Defined.

Lemma processValueList_completions_witness :
  (VALUE_LIST_ERROR [(1, Thrown (VNumber 0))] = INVALID_VALUE_LIST
   /\ valueExists (VArray [VString "A"; VNumber 0]) = true
   /\ instanceofArray (VArray [VString "A"; VNumber 0]) = false /\ tt = tt)
  \/ (exists elements errorIndices,
         VArray [VString "A"; VNumber 0] = VArray elements
         /\ VALUE_LIST_ERROR [(1, Thrown (VNumber 0))]
            = VALUE_LIST_ERROR errorIndices
         /\ errorIndices <> []
         /\ forall i, In i (map fst errorIndices) ->
                      i < List.length elements).
Proof.
  apply (processValueList_completions (strings_only contactTypeMap) 1
           (VArray [VString "A"; VNumber 0]) (VString "String") tt
           (Throw (VALUE_LIST_ERROR [(1, Thrown (VNumber 0))])) tt).
  reflexivity.
Defined.

Lemma processItem_completions_witness :
  (valueExists (VObject [("firstName", VString "Ann")]) = false
   /\ VObject [("firstName", VString "Ann")]
      = VObject [("firstName", VString "Ann")] /\ tt = tt)
  \/ (instanceofObject (VObject [("firstName", VString "Ann")]) = true
      /\ exists newItem, VObject [("firstName", VString "Ann")]
                         = VObject newItem).
Proof.
  apply (processItem_completions (strings_only contactTypeMap) 1
           (VObject [("firstName", VString "Ann")]) (VString "Contact") tt
           (Return (VObject [("firstName", VString "Ann")])) tt).
  reflexivity.
Defined.

Lemma processFieldValue_dispatch_witness :
  processFieldValue (@new unit exampleTypeMap) 1 (VString "x")
    (VString "TypeName") "fieldName3" tt
  = Some (Throw NON_EXISTENT_FIELD, tt)
  /\ processFieldValue (@new unit exampleTypeMap) 1 (VString "x")
       (VString "TypeName") "fieldName1" tt
     = processValue (@new unit exampleTypeMap) 1 (VString "x")
         (get (VObject [("type", VString "AnotherType");
                        ("label", VString "Field Label");
                        ("features", exampleFeatures)]) "type") tt.
Proof.
  split.
  - apply (proj1 (processFieldValue_dispatch (@new unit exampleTypeMap) 1
                    (VString "x") (VString "TypeName") "fieldName3" tt)).
    reflexivity.
  - apply (proj2 (proj2 (processFieldValue_dispatch
                           (@new unit exampleTypeMap) 1 (VString "x")
                           (VString "TypeName") "fieldName1" tt)
                    _ eq_refl)).
    reflexivity.
Defined.

Lemma processValueList_calls_in_index_order_witness :
  processValueList (recording exampleTypeMap) 1
    (VArray [VString "a"; VString "b"]) (VString "AnotherType") []
  = Some (Return (VArray [VString "a"; VString "b"]),
          [] ++ map (fun v => RemoteCall v (VString "AnotherType"))
                  [VString "a"; VString "b"]).
Proof.
  apply (proj2 (processValueList_calls_in_index_order exampleTypeMap 0
                  [VString "a"; VString "b"] (VString "AnotherType")
                  (get exampleTypeMap "AnotherType") [] eq_refl)).
  - reflexivity.
  - reflexivity.
Defined.

Lemma processItem_calls_in_field_order_witness :
  processItem (recording contactTypeMap) 1
    (VObject [("extra", VNumber 1); ("firstName", VString "Ann")])
    (VString "Contact") []
  = Some (Return
            (VObject
               (map (fun f =>
                       (f, get (VObject [("extra", VNumber 1);
                                         ("firstName", VString "Ann")]) f))
                  ["firstName"])),
          [] ++ map (fun f =>
                       PrimitiveCall
                         (get (VObject [("extra", VNumber 1);
                                        ("firstName", VString "Ann")]) f)
                         (fieldTypeOf (recording contactTypeMap)
                            (VString "Contact") f))
                  ["firstName"]).
Proof.
  apply (processItem_calls_in_field_order contactTypeMap 0
           (VObject [("extra", VNumber 1); ("firstName", VString "Ann")])
           (VString "Contact") ["firstName"] []).
  - reflexivity.
  - reflexivity.
  - reflexivity.
  - simpl. intros [H | []]. discriminate H.
  - intros f [<- | []]. reflexivity.
  - intros f [<- | []].
    exists (VObject [("type", VString "String")]),
      (VObject [("primitive", VBoolean true)]).
    repeat split; reflexivity.
Defined.

Lemma processItem_reads_declared_fields_only_witness :
  processItem (strings_only contactTypeMap) 1
    (VObject [("firstName", VString "Ann")]) (VString "Contact") tt
  = processItem (strings_only contactTypeMap) 1
      (VObject [("extra", VNumber 1); ("firstName", VString "Ann")])
      (VString "Contact") tt.
Proof.
  apply (processItem_reads_declared_fields_only (strings_only contactTypeMap)
           1 (VObject [("firstName", VString "Ann")])
           (VObject [("extra", VNumber 1); ("firstName", VString "Ann")])
           (VString "Contact") ["firstName"] tt).
  - reflexivity.
  - reflexivity.
  - reflexivity.
  - reflexivity.
  - intros f [<- | []]. split; reflexivity.
  - intros f [<- | []]. reflexivity.
Defined.

Lemma processValueList_app_witness :
  exists c,
    processValueList (strings_only contactTypeMap) 1
      (VArray ([VString "A"] ++ [VNumber 0])) (VString "String") tt
    = Some (c, tt)
    /\ c = Throw (VALUE_LIST_ERROR
                    (shift_indices (List.length [VString "A"])
                       [(0, Thrown (VNumber 0))])).
Proof.
  destruct (processValueList_app (strings_only contactTypeMap) 1
              [VString "A"] [VNumber 0] (VString "String") tt tt tt
              (Return (VArray [VString "A"]))
              (Throw (VALUE_LIST_ERROR [(0, Thrown (VNumber 0))]))
              eq_refl eq_refl) as [c [H [_ [_ [H3 _]]]]].
  exists c. split; [exact H | apply (H3 _ _ eq_refl eq_refl)].
Defined.

Lemma base_class_idempotent_witness :
  processItem (@new unit contactTypeMap) 1
    (VObject [("firstName", VString "Ann")]) (VString "Contact") tt
  = Some (Return (VObject [("firstName", VString "Ann")]), tt).
Proof.
  apply (proj1 (base_class_idempotent contactTypeMap 1
                  (VObject [("firstName", VString "Ann");
                            ("extra", VNumber 1)])
                  (VString "Contact")
                  (VObject [("firstName", VString "Ann")]) tt tt
                  eq_refl eq_refl eq_refl)).
  reflexivity.
Defined.

Lemma processValueList_singleton_witness :
  processValueList (strings_only contactTypeMap) 1 (VArray [VNumber 0])
    (VString "String") tt
  = Some (Throw (VALUE_LIST_ERROR [(0, Thrown (VNumber 0))]), tt).
Proof.
  apply (processValueList_singleton (strings_only contactTypeMap) 1
           (VNumber 0) (VString "String") tt tt
           (Throw (Thrown (VNumber 0)))).
  reflexivity.
Defined.

Lemma processFieldValue_untyped_field_witness :
  (truthy (get (VObject []) "multiple") = false ->
   processFieldValue (@new unit exampleTypeMap) 1 (VString "x")
     (VString "TypeName") "fieldName2" tt
   = Some (Throw NON_EXISTENT_TYPE, tt))
  /\ (truthy (get (VObject []) "multiple") = true ->
      forall elements, VString "x" = VArray elements -> elements <> [] ->
      processFieldValue (@new unit exampleTypeMap) 1 (VString "x")
        (VString "TypeName") "fieldName2" tt
      = Some (Throw (VALUE_LIST_ERROR
                       (map (fun i => (i, NON_EXISTENT_TYPE))
                          (seq 0 (List.length elements)))), tt)).
Proof.
  apply (processFieldValue_untyped_field (@new unit exampleTypeMap) 0
           (VString "x") (VString "TypeName") "fieldName2" (VObject []) tt).
  - reflexivity.
  - reflexivity.
  - simpl. intros [H | [H | [H | []]]]; discriminate H.
Defined.
